(** * The TTL cache of ts-mongodb (the class [Cache] of cache.ts), verified

    The class [Cache<T>] keeps a [Map] from string keys to pairs
    [[expiration, value]] and an array ("ledger") of pairs
    [[expiration, key]], one per [set] call.  Expired entries are swept
    lazily by [scrub], at most once per [interval]; [evict] makes room when
    the map is full.

    Conventions of the embedding.
    - JavaScript numbers that the cache handles are timestamps in
      milliseconds ([Date.valueOf()]), a duration [ttl] and a count
      [capacity]: they are integers, modelled in [Z].  [NaN] and fractional
      numbers are outside the model.
    - The optional [time] argument of a method is resolved by
      [time ?? new Date()] on entry; a method of the model receives the
      resolved instant [now].
    - The object is the state of a small state-and-error monad [M]; an
      assertion that fails throws, which ends the computation with
      [AssertionError].
    - [Map] is a [gmap]: the cache never iterates over it, so its insertion
      order is not observable.  The array is a [list], read by index.

    The user of the cache in the repository is [BaseCollection] of
    collection.ts: its constructor, [findOne] and [cacheOne] are modelled
    after the cache, with their own conventions. *)

From stdpp Require Import gmap strings list fin_maps sorting.
From Equations Require Import Equations.
From Equations.Prop Require Import Logic.

Local Open Scope Z_scope.

(** ** Results of a call: a value, or the [AssertionError] of [node:assert] *)

Inductive result (A : Type) : Type :=
| Ok (a : A)
| AssertionError.
Arguments Ok {A} a.
Arguments AssertionError {A}.

(** ** The values that count as nil

    [isNil] comes from util.js, which is not among the sources.  What it
    answers on a cached value of type [T] is left to an instance of this
    class (for the customary [x == null]: whether the value is [null] or
    [undefined]). *)

Class NilValue (T : Type) : Type := nil_value : T → bool.

Section Cache.

(** The type parameter of [Cache<T>]. *)
Context {T : Type} `{!NilValue T}.

(** Modelled from the spec: [isNil] of util.js.  The spec reads
    [isNil(this.get(key, now))] as "returns nothing": it holds of
    [undefined], here [None]; on a value that is present it answers
    [nil_value].  Where the source tests [!isNil(x)] on an element of the
    array or on an entry of the map, [x] is a tuple or [undefined]: the
    model matches on [Some]. *)
Definition isNil (x : option T) : bool :=
  match x with
  | None => true
  | Some value => nil_value value
  end.

(** ** The object *)

Record Cache : Type := mkCache {
  ttl : Z;
  capacity : Z;
  interval : Z;
  last_ : option Z;                  (* last?: Date *)
  map_ : gmap string (Z * T);        (* map = new Map<string, [number, T]>() *)
  list_ : list (Z * string)          (* list: Array<[number, string]> = [] *)
}.

Definition set_last (now : Z) (c : Cache) : Cache :=
  mkCache (ttl c) (capacity c) (interval c) (Some now) (map_ c) (list_ c).

Definition set_map (m : gmap string (Z * T)) (c : Cache) : Cache :=
  mkCache (ttl c) (capacity c) (interval c) (last_ c) m (list_ c).

Definition set_list (l : list (Z * string)) (c : Cache) : Cache :=
  mkCache (ttl c) (capacity c) (interval c) (last_ c) (map_ c) l.

(** ** The monad of methods: [this] is threaded, an assertion may throw *)

Definition M (A : Type) : Type := Cache → result (A * Cache).

Definition ret {A : Type} (a : A) : M A := λ c, Ok (a, c).

Definition bind {A B : Type} (x : M A) (f : A → M B) : M B :=
  λ c, match x c with
       | Ok (a, c') => f a c'
       | AssertionError => AssertionError
       end.

Definition read {A : Type} (f : Cache → A) : M A := λ c, Ok (f c, c).

Definition update (f : Cache → Cache) : M unit := λ c, Ok (tt, f c).

Notation "'do' x <- e ; k" := (bind e (λ x, k))
  (at level 10, x name, e at level 100, k at level 200).
Notation "e ;; k" := (bind e (λ _, k))
  (at level 100, k at level 200, right associativity).

(** The calls on [this.map] and [this.list] that the methods make. *)

Definition map_get (key : string) : M (option (Z * T)) :=
  read (λ c, map_ c !! key).

Definition map_set (key : string) (item : Z * T) : M unit :=
  update (λ c, set_map (<[key := item]> (map_ c)) c).

Definition map_delete (key : string) : M unit :=
  update (λ c, set_map (delete key (map_ c)) c).

Definition list_push (item : Z * string) : M unit :=
  update (λ c, set_list (list_ c ++ [item]) c).

(** [this.list.splice(0, size)] *)
Definition list_splice0 (size : nat) : M unit :=
  update (λ c, set_list (drop size (list_ c)) c).

(** ** constructor({ ttl, capacity, interval }) *)

Definition constructor (ttl capacity : Z) (interval : option Z) : result Cache :=
  if bool_decide (ttl > 0) && bool_decide (capacity > 0)
  then Ok (mkCache ttl capacity (default 10000 interval) None ∅ [])
  else AssertionError.

(** ** isFull: a reading of the object *)

Definition isFull (c : Cache) : bool :=
  bool_decide (Z.of_nat (size (map_ c)) >= capacity c).

(** ** The body shared by the loops of [scrub] and [evict]

    [const value = this.map.get(key)]
    [if (!isNil(value) && value[0] === expiration) this.map.delete(key)] *)

Definition delete_if_current (expiration : Z) (key : string) (c : Cache) : Cache :=
  match map_ c !! key with
  | Some value =>
      if bool_decide (value.1 = expiration)
      then set_map (delete key (map_ c)) c
      else c
  | None => c
  end.

(** ** scrub

    The loop [for (; size < this.list.length; ++size)], from the index [size]
    on; it answers the index it stops at. *)

Equations? scrub_loop (timestamp : Z) (size : nat) (c : Cache) : result (nat * Cache)
  by wf (length (list_ c) - size)%nat lt :=
scrub_loop timestamp size c with decide (size < length (list_ c))%nat := {
  | right _ => Ok (size, c)
  | left _ with list_ c !! size := {
     | None => AssertionError                     (* assert(!isNil(item)) *)
     | Some (expiration, key) =>
        if bool_decide (expiration > timestamp) then Ok (size, c)   (* break *)
        else scrub_loop timestamp (S size) (delete_if_current expiration key c) } }.
Proof. unfold delete_if_current. repeat case_match; simpl; lia. Qed.

Definition scrub (now : Z) : M unit :=
  let timestamp := now in
  do last <- read last_;
  do interval <- read interval;
  if bool_decide (timestamp - default 0 last < interval) then ret tt
  else
    do size <- scrub_loop timestamp 0;
    list_splice0 size ;;
    update (set_last now).

(** ** evict

    The loop [for (; this.isFull(); ++size)], from the index [size] on. *)

Equations? evict_loop (size : nat) (c : Cache) : result (nat * Cache)
  by wf (length (list_ c) - size)%nat lt :=
evict_loop size c with isFull c := {
  | false => Ok (size, c)
  | true with inspect (list_ c !! size) := {
     | exist _ None _ => AssertionError           (* assert(!isNil(item)) *)
     | exist _ (Some (expiration, key)) Hitem =>
        evict_loop (S size) (delete_if_current expiration key c) } }.
Proof.
  apply lookup_lt_Some in Hitem.
  unfold delete_if_current. repeat case_match; simpl; lia.
Qed.

Definition evict : M unit :=
  do size <- evict_loop 0;
  list_splice0 size.

(** ** get *)

Definition get (key : string) (now : Z) : M (option T) :=
  scrub now ;;
  do item <- map_get key;
  match item with
  | Some (expiration, value) =>
      if bool_decide (expiration > now) then ret (Some value)
      else map_delete key ;; ret None              (* expire the item *)
  | None => ret None
  end.

(** ** set

    [if (this.isFull() && isNil(this.get(key, now))) this.evict()]: the
    conjunction evaluates [get] only when the map is full. *)

Definition set (key : string) (value : T) (now : Z) : M unit :=
  scrub now ;;
  do isfull <- read isFull;
  (if isfull then
     do cached <- get key now;
     if isNil cached then evict else ret tt
   else ret tt) ;;
  do ttl <- read ttl;
  let expiration := now + ttl in
  map_set key (expiration, value) ;;
  list_push (expiration, key).

(** ** Sequences of calls

    The methods of the class are public; a client holds the object and calls
    them in any order. *)

Inductive call : Type :=
| Set_ (key : string) (value : T) (time : Z)
| Get (key : string) (time : Z)
| IsFull
| Scrub (time : Z)
| Evict.

Definition perform (x : call) : M unit :=
  match x with
  | Set_ key value time => set key value time
  | Get key time => get key time ;; ret tt
  | IsFull => read isFull ;; ret tt
  | Scrub time => scrub time
  | Evict => evict
  end.

Fixpoint perform_all (xs : list call) : M unit :=
  match xs with
  | [] => ret tt
  | x :: xs => perform x ;; perform_all xs
  end.

(** The objects a client can hold: built by the constructor, then used. *)
Inductive reachable : Cache → Prop :=
| reachable_new ttl capacity interval c :
    constructor ttl capacity interval = Ok c → reachable c
| reachable_call x c c' :
    reachable c → perform x c = Ok (tt, c') → reachable c'.

(** ** Notions used to state the properties *)

(** What a pass that consumed the entries [es] of the array leaves of the
    map [m]: the entries whose [(expiration, key)] is not among [es]. *)
Definition purge (es : list (Z * string)) (m : gmap string (Z * T)) :
    gmap string (Z * T) :=
  filter (λ kv, (kv.2.1, kv.1) ∉ es) m.

(** The number of leading entries of the array that have expired at
    [timestamp]. *)
Fixpoint expired_prefix (timestamp : Z) (l : list (Z * string)) : nat :=
  match l with
  | (expiration, _) :: l' =>
      if bool_decide (expiration > timestamp) then 0%nat
      else S (expired_prefix timestamp l')
  | [] => 0%nat
  end.

(** The guard of [scrub]: the sweep is skipped. *)
Definition rate_limited (now : Z) (c : Cache) : Prop :=
  now - default 0 (last_ c) < interval c.

#[global] Instance rate_limited_dec now c : Decision (rate_limited now c) :=
  Z.lt_dec _ _.

(** An array entry is current when the map holds its key with its
    expiration; otherwise it is stale. *)
Definition current (c : Cache) (item : Z * string) : Prop :=
  ∃ value, map_ c !! item.2 = Some (item.1, value).

(** Every entry of the map has its array entry at an index from [size] on. *)
Definition covers_from (size : nat) (c : Cache) : Prop :=
  ∀ key expiration value,
    map_ c !! key = Some (expiration, value) →
    ∃ i, (size ≤ i)%nat ∧ list_ c !! i = Some (expiration, key).

Definition covers (c : Cache) : Prop := covers_from 0 c.

(** The invariant of the objects in use. *)
Record invariant (c : Cache) : Prop := {
  inv_ttl : ttl c > 0;
  inv_capacity : capacity c > 0;
  inv_size : Z.of_nat (size (map_ c)) ≤ capacity c;
  inv_covers : covers c
}.

(** ** The methods as functions of the object

    What [scrub], [get] and the steps of [set] make of an object; the
    properties relate the methods to them. *)

(** The object after a pass that consumed the first [n] entries of the
    array. *)
Definition consumed (n : nat) (c : Cache) : Cache :=
  mkCache (ttl c) (capacity c) (interval c) (last_ c)
    (purge (take n (list_ c)) (map_ c)) (drop n (list_ c)).

(** The object after a [scrub] that sweeps. *)
Definition scrubbed (now : Z) (c : Cache) : Cache :=
  let n := expired_prefix now (list_ c) in
  mkCache (ttl c) (capacity c) (interval c) (Some now)
    (purge (take n (list_ c)) (map_ c)) (drop n (list_ c)).

Definition after_scrub (now : Z) (c : Cache) : Cache :=
  if decide (rate_limited now c) then c else scrubbed now c.

Definition after_get (key : string) (now : Z) (c : Cache) : option T * Cache :=
  let c := after_scrub now c in
  match map_ c !! key with
  | Some (expiration, value) =>
      if bool_decide (expiration > now) then (Some value, c)
      else (None, set_map (delete key (map_ c)) c)
  | None => (None, c)
  end.

(** The last two statements of [set]. *)
Definition stored (key : string) (value : T) (now : Z) (c : Cache) : Cache :=
  mkCache (ttl c) (capacity c) (interval c) (last_ c)
    (<[key := (now + ttl c, value)]> (map_ c))
    (list_ c ++ [(now + ttl c, key)]).

(** The second statement of [set]. *)
Definition make_room (key : string) (now : Z) : M unit :=
  do isfull <- read isFull;
  if isfull then
    do cached <- get key now;
    if isNil cached then evict else ret tt
  else ret tt.

(** ** Sequences of [set] on distinct keys *)

Definition entry_key (x : string * T * Z) : string := x.1.1.

Definition sets (xs : list (string * T * Z)) : list call :=
  (λ x, Set_ x.1.1 x.1.2 x.2) <$> xs.

(** Each [set] of the sequence comes before the entries of the earlier ones
    expire. *)
Definition none_expired (ttl : Z) (xs : list (string * T * Z)) : Prop :=
  StronglySorted (λ x y, x.2 + ttl > y.2) xs.

(** The cache holds exactly the entries of the calls [xs], in their order. *)
Record holds (c : Cache) (xs : list (string * T * Z)) : Prop := {
  holds_list : list_ c = (λ x, (x.2 + ttl c, x.1.1)) <$> xs;
  holds_size : size (map_ c) = length xs;
  holds_in : ∀ k v t, (k, v, t) ∈ xs → map_ c !! k = Some (t + ttl c, v);
  holds_out : ∀ k, k ∉ entry_key <$> xs → map_ c !! k = None
}.

(** The last [n] elements of a list. *)
Definition window (n : nat) {A : Type} (l : list A) : list A :=
  drop (length l - n) l.

End Cache.

Arguments Cache T : clear implicits.
Arguments M T A : clear implicits.
Arguments call T : clear implicits.
Arguments constructor T ttl capacity interval : clear implicits.

(** ** A cache of numbers, for the examples

    [Cache<number>]: a number is never nil. *)

#[export] Instance number_nil : NilValue Z := λ _, false.

(** [new Cache<number>({ ttl: 60_000, capacity: 3 })], as in the tests. *)
Definition fresh : Cache Z := mkCache 60000 3 10000 None ∅ [].

(** [new Cache<number>({ ttl: 10, capacity: 2 })] *)
Definition small : Cache Z := mkCache 10 2 10000 None ∅ [].

(** [new Cache<number>({ ttl: 10, capacity: 2, interval: 100 })] after
    [set('a', 1)] at time 100: the sweep ran at time 100, and the entry
    expires at time 110. *)
Definition swept : Cache Z :=
  mkCache 10 2 100 (Some 100) {["a" := (110, 1)]} [(110, "a")].

(** [small] after [set('a', 1)] at time 10000 and [set('b', 2)] at time
    10001: the map is full, the sweep ran at time 10000. *)
Definition full : Cache Z :=
  mkCache 10 2 10000 (Some 10000)
    (<["b" := (10011, 2)]> {["a" := (10010, 1)]})
    [(10010, "a"); (10011, "b")].

(** [Cache<number | undefined>]: the value [undefined] is nil. *)
#[export] Instance optional_nil : NilValue (option Z) :=
  λ v, bool_decide (v = None).

(** ** More notions about sequences of calls *)

Section Calls.

Context {T : Type} `{!NilValue T}.

(** The instant a call supplies, or reads from the clock. *)
Definition call_time (x : call T) : option Z :=
  match x with
  | Set_ _ _ time => Some time
  | Get _ time => Some time
  | Scrub time => Some time
  | IsFull | Evict => None
  end.

(** The clock does not run backwards from one call to the next. *)
Definition chronological (xs : list (call T)) : Prop :=
  StronglySorted Z.le (omap call_time xs).

(** The call is a [set] of this key. *)
Definition sets_key (key : string) (x : call T) : bool :=
  match x with
  | Set_ key' _ _ => bool_decide (key' = key)
  | _ => false
  end.

(** The expirations of the array, front first. *)
Definition expirations (c : Cache T) : list Z := (list_ c).*1.

(** The expirations are sorted, and none exceeds [latest + ttl]. *)
Definition sorted_until (latest : Z) (c : Cache T) : Prop :=
  StronglySorted Z.le (expirations c) ∧
  Forall (λ e, e ≤ latest + ttl c) (expirations c).

End Calls.

(** * The collection that reads through the cache (collection.ts)

    [BaseCollection<Doc>] reads the documents of one collection of MongoDB
    through the driver.  With the option [cache] it owns a [Cache<Doc>],
    which [cacheOne] consults before it asks the driver.

    Conventions of the embedding.
    - The driver and the connection are outside the sources.  An [async]
      method runs until it awaits; what it awaits from the driver is a
      [request], and the method goes on from the [reply]: a document,
      [null], or an error (thrown by the driver, or by the connection when
      [this.collection] is evaluated).
    - Calls interleave at an [await]: when a method goes on, it reads the
      clock anew and finds [this] as the other calls have left it.  Each
      stretch of a method, from the call or from an [await] to the next
      [await], is a function of the instant and of [this].
    - An [AssertionError] of the cache rejects the promise of the method;
      as for the cache, the model does not follow the object after it.
    - The parameter [options = {}] is resolved by the caller. *)

(** [String(id)], the key of a document in the cache. *)
Class ToString (Id : Type) : Type := String_ : Id → string.

(** A promise, once settled. *)
Inductive promise (E A : Type) : Type :=
| Fulfilled (a : A)
| Rejected (err : E).
Arguments Fulfilled {E A} a.
Arguments Rejected {E A} err.

Section Collection.

(** The documents, their [_id], and what the driver defines. *)
Context {Doc Id FindOptions Connection DriverError : Type}.
Context `{!NilValue Doc} `{!ToString Id}.

(** cache.ts: [Options] *)
Record CacheOptions : Type := mkCacheOptions {
  options_ttl : Z;
  options_capacity : Z;
  options_interval : option Z
}.

Record CollectionOptions : Type := mkCollectionOptions {
  options_connection : Connection;
  options_name : string;
  options_cache : option CacheOptions
}.

Record BaseCollection : Type := mkBaseCollection {
  name : string;
  connection : Connection;
  cache : option (Cache Doc)
}.

Definition set_cache (c : Cache Doc) (this : BaseCollection) : BaseCollection :=
  mkBaseCollection (name this) (connection this) (Some c).

(** What a method throws: the [NotFoundError] of error.ts, or what the
    driver or the connection threw. *)
Inductive thrown : Type :=
| NotFoundError (message : string)
| Thrown (err : DriverError).

(** [this.collection.findOne({ _id: id }, options)], where
    [this.collection] is [this.connection.db.collection(this.name)]. *)
Inductive request : Type :=
| FindOne (connection : Connection) (collection : string) (id : Id)
          (options : FindOptions).

(** What the driver answers: [None] is [null]. *)
Definition reply : Type := promise DriverError (option Doc).

(** The promise of an [async] method: settled, or pending.  A pending
    method goes on in a later turn ([Later]: it awaited a promise that has
    settled) or when the driver answers ([Await]). *)
#[warnings="-register-all"]
Inductive task (A : Type) : Type :=
| Settled (p : promise thrown A)
| Later (k : Z → BaseCollection → result (task A * BaseCollection))
| Await (q : request)
        (k : reply → Z → BaseCollection → result (task A * BaseCollection)).
Arguments Settled {A} p.
Arguments Later {A} k.
Arguments Await {A} q k.

(** A stretch of a method: it reads the clock and [this]. *)
Definition method (A : Type) : Type :=
  Z → BaseCollection → result (task A * BaseCollection).

(** [await t], followed by [k]: the caller goes on after [t] has settled,
    in a later turn. *)
Fixpoint await {A B : Type} (t : task A) (k : promise thrown A → method B)
    : task B :=
  match t with
  | Settled p => Later (k p)
  | Later k' =>
      Later (λ now this,
        match k' now this with
        | Ok (t', this') => Ok (await t' k, this')
        | AssertionError => AssertionError
        end)
  | Await q k' =>
      Await q (λ r now this,
        match k' r now this with
        | Ok (t', this') => Ok (await t' k, this')
        | AssertionError => AssertionError
        end)
  end.

(** [this.cache?.m(...)]: the call is made if there is a cache; otherwise
    the expression is [undefined]. *)
Definition on_cache {X : Type} (m : M Doc X) (this : BaseCollection)
    : result (option X * BaseCollection) :=
  match cache this with
  | Some c =>
      match m c with
      | Ok (x, c') => Ok (Some x, set_cache c' this)
      | AssertionError => AssertionError
      end
  | None => Ok (None, this)
  end.

(** ** constructor(options) *)

Definition new_BaseCollection (options : CollectionOptions)
    : result BaseCollection :=
  match options_cache options with
  | Some o =>
      match constructor Doc (options_ttl o) (options_capacity o)
              (options_interval o) with
      | Ok c =>
          Ok (mkBaseCollection (options_name options)
                (options_connection options) (Some c))
      | AssertionError => AssertionError
      end
  | None =>
      Ok (mkBaseCollection (options_name options)
            (options_connection options) None)
  end.

(** ** findOne

    [this.collection] is read when the request is made, [this.name] of the
    message when the driver has answered. *)

Definition findOne (id : Id) (options : FindOptions) : method Doc :=
  λ _ this,
  Ok (Await (FindOne (connection this) (name this) id options)
        (λ doc _ this,
           Ok (match doc with
               | Fulfilled None =>
                   Settled (Rejected (NotFoundError ("Not Found: " +:+ name this)))
               | Fulfilled (Some doc) => Settled (Fulfilled doc)
               | Rejected err => Settled (Rejected (Thrown err))
               end, this)),
      this).

(** ** cacheOne

    [cached] is [undefined] when there is no cache and when [get] returns
    [undefined].  The two calls on the cache pass no [time]: each reads the
    clock, [get] when [cacheOne] is called and [set] when it goes on. *)

Definition cacheOne (id : Id) (options : FindOptions) : method Doc :=
  λ now this,
  let key := String_ id in
  match on_cache (get key now) this with
  | Ok (cached, this) =>
      let cached := mjoin cached in
      let read_through :=
        match findOne id options now this with
        | Ok (found, this) =>
            Ok (await found (λ doc now this,
                  match doc with
                  | Fulfilled doc =>
                      match on_cache (set key doc now) this with
                      | Ok (_, this) => Ok (Settled (Fulfilled doc), this)
                      | AssertionError => AssertionError
                      end
                  | Rejected err => Ok (Settled (Rejected err), this)
                  end), this)
        | AssertionError => AssertionError
        end in
      match cached with
      | Some doc =>
          if isNil cached then read_through
          else Ok (Settled (Fulfilled doc), this)
      | None => read_through
      end
  | AssertionError => AssertionError
  end.

(** ** Notions used to state the properties of the collection *)

(** The cache of the collection, if there is one, is a cache in use. *)
Definition sound (this : BaseCollection) : Prop :=
  match cache this with
  | Some c => reachable c
  | None => True
  end.

(** The pending method never fails an assertion: whenever it goes on, with
    whichever answer, at whichever instant, from a sound object, it leaves
    a sound object of the same collection. *)
#[warnings="-register-all"]
Inductive safe {A : Type} : task A → Prop :=
| safe_settled p : safe (Settled p)
| safe_later k :
    (∀ now this, sound this →
       ∃ t this', k now this = Ok (t, this') ∧ sound this' ∧
                  name this' = name this ∧
                  connection this' = connection this ∧ safe t) →
    safe (Later k)
| safe_await q k :
    (∀ r now this, sound this →
       ∃ t this', k r now this = Ok (t, this') ∧ sound this' ∧
                  name this' = name this ∧
                  connection this' = connection this ∧ safe t) →
    safe (Await q k).

(** [cached] in [cacheOne]: what [this.cache?.get(key)] evaluates to at
    [now], [None] for [undefined]. *)
Definition cached_at (key : string) (now : Z) (this : BaseCollection)
    : option Doc :=
  match cache this with
  | Some c => (after_get key now c).1
  | None => None
  end.

End Collection.

Arguments BaseCollection Doc Connection : clear implicits.
Arguments CollectionOptions Connection : clear implicits.
Arguments request Id FindOptions Connection : clear implicits.
Arguments task Doc Id FindOptions Connection DriverError A : clear implicits.
Arguments thrown DriverError : clear implicits.
Arguments mkCollectionOptions {Connection} _ _ _.
Arguments mkBaseCollection {Doc Connection} _ _ _.
Arguments NotFoundError {DriverError} message.
Arguments Thrown {DriverError} err.
Arguments FindOne {Id FindOptions Connection} connection collection id options.
Arguments Settled {Doc Id FindOptions Connection DriverError A} p.
Arguments Later {Doc Id FindOptions Connection DriverError A} k.
Arguments Await {Doc Id FindOptions Connection DriverError A} q k.

(** ** A collection for the examples

    The documents are strings here, and so are their ids: a document is
    never nil, and [String(id)] of a string is the string itself.  The
    connection and the options of the driver carry nothing. *)

#[export] Instance document_nil : NilValue string := λ _, false.

#[export] Instance string_id : ToString string := λ id, id.

(** [{ name: 'tests', connection, cache: { capacity: 10, ttl: 60000 } }],
    as in the tests. *)
Definition tests_options : CollectionOptions unit :=
  mkCollectionOptions tt "tests" (Some (mkCacheOptions 60000 10 None)).

(** [new Tests(tests_options)] *)
Definition tests : BaseCollection string unit :=
  mkBaseCollection "tests" tt (Some (mkCache 60000 10 10000 None ∅ [])).

(** * Properties *)

Section Properties.

Context {T : Type} `{!NilValue T}.

Implicit Types (c : Cache T) (value v : T).

(** ** The monad *)

Lemma bind_Ok {A B} (x : M T A) (f : A → M T B) c a c' :
  x c = Ok (a, c') → bind x f c = f a c'.
Proof. unfold bind. by intros ->. Qed.

Lemma bind_Ok_inv {A B} (x : M T A) (f : A → M T B) c r :
  bind x f c = Ok r → ∃ a c', x c = Ok (a, c') ∧ f a c' = Ok r.
Proof. unfold bind. destruct (x c) as [[a c']|]; [eauto | done]. Qed.

(** ** The shared loop body *)

Section Body.
Context (expiration : Z) (key : string) (c : Cache T).

Lemma delete_if_current_frame :
  let c' := delete_if_current expiration key c in
  ttl c' = ttl c ∧ capacity c' = capacity c ∧ interval c' = interval c ∧
  last_ c' = last_ c ∧ list_ c' = list_ c.
Proof. unfold delete_if_current. by repeat case_match. Qed.

Lemma delete_if_current_list :
  list_ (delete_if_current expiration key c) = list_ c.
Proof. apply delete_if_current_frame. Qed.

Lemma delete_if_current_hit value :
  map_ c !! key = Some (expiration, value) →
  delete_if_current expiration key c = set_map (delete key (map_ c)) c.
Proof.
  unfold delete_if_current. intros ->. simpl. by rewrite bool_decide_true.
Qed.

Lemma delete_if_current_stale :
  ¬ current c (expiration, key) → delete_if_current expiration key c = c.
Proof.
  unfold delete_if_current, current. simpl. intros Hstale.
  destruct (map_ c !! key) as [[e v]|] eqn:E; [|done].
  simpl. case_bool_decide; [|done]. subst. destruct Hstale. eauto.
Qed.

Lemma delete_if_current_cases :
  (¬ current c (expiration, key) ∧ delete_if_current expiration key c = c) ∨
  (current c (expiration, key) ∧
   delete_if_current expiration key c = set_map (delete key (map_ c)) c).
Proof.
  destruct (map_ c !! key) as [[e v]|] eqn:E.
  - destruct (decide (e = expiration)) as [->|Hne].
    + right. split; [by exists v | by eapply delete_if_current_hit].
    + left. assert (¬ current c (expiration, key)) as Hs.
      { intros [v' Hv']. simpl in Hv'. congruence. }
      split; [done | by apply delete_if_current_stale].
  - left. assert (¬ current c (expiration, key)) as Hs.
    { intros [v' Hv']. simpl in Hv'. congruence. }
    split; [done | by apply delete_if_current_stale].
Qed.

Lemma delete_if_current_purge :
  map_ (delete_if_current expiration key c) = purge [(expiration, key)] (map_ c).
Proof.
  apply map_eq. intros k. unfold purge.
  destruct delete_if_current_cases as [[Hs ->]|[[v Hv] ->]]; simpl in *.
  - symmetry. destruct (map_ c !! k) as [[e w]|] eqn:E.
    + apply map_lookup_filter_Some. split; [done|]. simpl.
      rewrite list_elem_of_singleton. intros [= -> ->]. apply Hs. by exists w.
    + apply map_lookup_filter_None. left. done.
  - destruct (decide (k = key)) as [->|Hne].
    + rewrite lookup_delete_eq. symmetry. apply map_lookup_filter_None.
      right. intros x Hx. simpl. rewrite Hv in Hx. injection Hx as <-.
      simpl. rewrite list_elem_of_singleton. naive_solver.
    + rewrite lookup_delete_ne by done.
      symmetry. destruct (map_ c !! k) as [[e w]|] eqn:E.
      * apply map_lookup_filter_Some. split; [done|]. simpl.
        rewrite list_elem_of_singleton. congruence.
      * apply map_lookup_filter_None. by left.
Qed.

End Body.

(** ** What [purge] leaves *)

Lemma lookup_purge_Some es (m : gmap string (Z * T)) k e v :
  purge es m !! k = Some (e, v) ↔ m !! k = Some (e, v) ∧ (e, k) ∉ es.
Proof. unfold purge. by rewrite map_lookup_filter_Some. Qed.

Lemma lookup_purge_None es (m : gmap string (Z * T)) k :
  purge es m !! k = None ↔
  m !! k = None ∨ ∃ e v, m !! k = Some (e, v) ∧ (e, k) ∈ es.
Proof.
  unfold purge. rewrite map_lookup_filter_None. split.
  - intros [H|H]; [by left|].
    destruct (m !! k) as [[e v]|] eqn:E; [|by left].
    right. exists e, v. split; [done|].
    specialize (H _ eq_refl). simpl in H.
    by destruct (decide ((e, k) ∈ es)).
  - intros [H|(e & v & H & Hin)]; [by left|].
    right. intros x Hx. rewrite H in Hx. injection Hx as <-. simpl. tauto.
Qed.

Lemma purge_nil (m : gmap string (Z * T)) : purge [] m = m.
Proof.
  apply map_eq. intros k. destruct (m !! k) as [[e v]|] eqn:E.
  - apply lookup_purge_Some. split; [done | apply not_elem_of_nil].
  - apply lookup_purge_None. by left.
Qed.

Lemma purge_purge es1 es2 (m : gmap string (Z * T)) :
  purge es2 (purge es1 m) = purge (es1 ++ es2) m.
Proof.
  apply map_eq. intros k.
  destruct (purge (es1 ++ es2) m !! k) as [[e v]|] eqn:E.
  - apply lookup_purge_Some in E as [E Hn].
    rewrite elem_of_app in Hn.
    apply lookup_purge_Some. split; [|tauto].
    apply lookup_purge_Some. split; [done | tauto].
  - apply lookup_purge_None in E as [E|(e & v & E & Hin)].
    + apply lookup_purge_None. left. apply lookup_purge_None. by left.
    + apply elem_of_app in Hin as [Hin|Hin].
      * apply lookup_purge_None. left. apply lookup_purge_None.
        right. eauto.
      * destruct (decide ((e, k) ∈ es1)).
        -- apply lookup_purge_None. left. apply lookup_purge_None.
           right. eauto.
        -- apply lookup_purge_None. right. exists e, v. split; [|done].
           by apply lookup_purge_Some.
Qed.

Lemma purge_subseteq es (m : gmap string (Z * T)) : purge es m ⊆ m.
Proof. apply map_filter_subseteq. Qed.

Lemma purge_size es (m : gmap string (Z * T)) :
  (size (purge es m) ≤ size m)%nat.
Proof. apply map_subseteq_size, purge_subseteq. Qed.

(** ** Setters *)

Lemma set_map_id c : set_map (map_ c) c = c.
Proof. by destruct c. Qed.

Lemma set_map_delete_if_current (m : gmap string (Z * T)) e k c :
  set_map m (delete_if_current e k c) = set_map m c.
Proof. unfold delete_if_current. by repeat case_match. Qed.

(** ** One turn of each loop *)

Lemma scrub_loop_step timestamp size c :
  scrub_loop timestamp size c =
  match list_ c !! size with
  | Some (expiration, key) =>
      if bool_decide (expiration > timestamp) then Ok (size, c)
      else scrub_loop timestamp (S size) (delete_if_current expiration key c)
  | None => Ok (size, c)
  end.
Proof.
  rewrite scrub_loop_equation_1.
  destruct (decide (size < length (list_ c))%nat) as [Hlt|Hge]; simp scrub_loop.
  - destruct (list_ c !! size) as [[e k]|] eqn:E; simp scrub_loop; [done|].
    apply lookup_ge_None in E. lia.
  - rewrite (proj2 (lookup_ge_None _ _)); [done | lia].
Qed.

Lemma evict_loop_step size c :
  evict_loop size c =
  if isFull c then
    match list_ c !! size with
    | Some (expiration, key) =>
        evict_loop (S size) (delete_if_current expiration key c)
    | None => AssertionError
    end
  else Ok (size, c).
Proof.
  rewrite evict_loop_equation_1.
  destruct (isFull c); simp evict_loop; [|done].
  assert (∀ item (Hitem : list_ c !! size = item),
    evict_loop_unfold_clause_1_clause_2 size c (item ↾ Hitem) =
    match item with
    | Some (expiration, key) =>
        evict_loop (S size) (delete_if_current expiration key c)
    | None => AssertionError
    end) as Hboth.
  { intros [[e k]|] Hitem; by simp evict_loop. }
  apply Hboth.
Qed.

(** ** The loop of [scrub]: it never throws, and consumes exactly the
    expired prefix *)

Lemma scrub_loop_spec timestamp size c :
  let n := expired_prefix timestamp (drop size (list_ c)) in
  scrub_loop timestamp size c =
  Ok ((size + n)%nat, set_map (purge (take n (drop size (list_ c))) (map_ c)) c).
Proof.
  remember (length (list_ c) - size)%nat as fuel eqn:Hfuel.
  revert size c Hfuel.
  induction fuel as [fuel IH] using lt_wf_ind. intros size c Hfuel.
  rewrite scrub_loop_step.
  destruct (list_ c !! size) as [[e k]|] eqn:E.
  - rewrite (drop_S _ _ _ E). simpl.
    case_bool_decide as Hlive; simpl.
    + by rewrite purge_nil, set_map_id, Nat.add_0_r.
    + pose proof (lookup_lt_Some _ _ _ E) as Hlt.
      rewrite (IH (length (list_ c) - S size)%nat); [| lia |].
      * rewrite delete_if_current_list, delete_if_current_purge,
          purge_purge, set_map_delete_if_current.
        simpl. do 2 f_equal. lia.
      * by rewrite delete_if_current_list.
  - apply lookup_ge_None in E. rewrite drop_ge by done. simpl.
    by rewrite purge_nil, set_map_id, Nat.add_0_r.
Qed.

Lemma expired_prefix_le timestamp l :
  (expired_prefix timestamp l ≤ length l)%nat.
Proof.
  induction l as [|[e k] l IH]; simpl; [lia|]. case_bool_decide; lia.
Qed.

Lemma expired_prefix_expired timestamp l e k :
  (e, k) ∈ take (expired_prefix timestamp l) l → e ≤ timestamp.
Proof.
  induction l as [|[e' k'] l IH]; simpl.
  - by intros ?%elem_of_nil.
  - case_bool_decide; simpl; [by intros ?%elem_of_nil|].
    intros [[= -> ->]|Hin]%elem_of_cons; [lia | auto].
Qed.

Lemma expired_prefix_next timestamp l e k :
  l !! expired_prefix timestamp l = Some (e, k) → e > timestamp.
Proof.
  induction l as [|[e' k'] l IH]; simpl; [done|].
  case_bool_decide; simpl; [by intros [= -> ->] | auto].
Qed.

Lemma expired_prefix_fresh timestamp l :
  (∀ e k, (e, k) ∈ l → e > timestamp) → expired_prefix timestamp l = 0%nat.
Proof.
  destruct l as [|[e k] l]; simpl; [done|]. intros H.
  rewrite bool_decide_true; [done|]. apply (H e k). by left.
Qed.

Lemma expired_prefix_drop timestamp l :
  expired_prefix timestamp (drop (expired_prefix timestamp l) l) = 0%nat.
Proof.
  induction l as [|[e k] l IH]; simpl; [done|].
  case_bool_decide as H; simpl; [by rewrite bool_decide_true | done].
Qed.

(** ** [scrub] as a function of the object *)

Lemma scrub_limited now c : rate_limited now c → scrub now c = Ok (tt, c).
Proof.
  unfold rate_limited, scrub, bind, read. intros H.
  by rewrite bool_decide_true.
Qed.

Lemma scrub_due now c :
  ¬ rate_limited now c → scrub now c = Ok (tt, scrubbed now c).
Proof.
  unfold rate_limited, scrub, bind, read. intros H.
  rewrite bool_decide_false by done.
  rewrite scrub_loop_spec. simpl. by rewrite drop_0.
Qed.

(** ** The loop of [evict] *)

Lemma evict_loop_not_full size c :
  isFull c = false → evict_loop size c = Ok (size, c).
Proof. intros H. by rewrite evict_loop_step, H. Qed.

(** What the loop has done when it returns. *)
Lemma evict_loop_spec size c size' c' :
  evict_loop size c = Ok (size', c') →
  (size ≤ size')%nat ∧
  (size' ≤ size `max` length (list_ c))%nat ∧
  c' = set_map (purge (take (size' - size) (drop size (list_ c))) (map_ c)) c ∧
  isFull c' = false.
Proof.
  remember (length (list_ c) - size)%nat as fuel eqn:Hfuel.
  revert size c Hfuel.
  induction fuel as [fuel IH] using lt_wf_ind. intros size c Hfuel.
  rewrite evict_loop_step.
  destruct (isFull c) eqn:Hfull.
  - destruct (list_ c !! size) as [[e k]|] eqn:E; [|done].
    pose proof (lookup_lt_Some _ _ _ E) as Hlt.
    intros Hloop.
    apply (IH (length (list_ c) - S size)%nat) in Hloop;
      [| lia | by rewrite delete_if_current_list].
    rewrite delete_if_current_list in Hloop.
    destruct Hloop as (Hle & Hmax & -> & Hnot).
    split; [lia|]. split; [lia|]. split; [|done].
    rewrite (drop_S _ _ _ E).
    replace (size' - size)%nat with (S (size' - S size)) by lia. simpl.
    rewrite delete_if_current_purge, purge_purge.
    by rewrite set_map_delete_if_current.
  - intros [= <- <-]. split; [lia|]. split; [lia|]. split; [|done].
    rewrite Nat.sub_diag. simpl. by rewrite purge_nil, set_map_id.
Qed.

Lemma covers_from_next size c e k :
  list_ c !! size = Some (e, k) →
  covers_from size c → covers_from (S size) (delete_if_current e k c).
Proof.
  intros E Hcov key expiration value.
  rewrite delete_if_current_purge, delete_if_current_list.
  intros [Hm Hn]%lookup_purge_Some.
  destruct (Hcov _ _ _ Hm) as (i & Hi & Hl).
  exists i. split; [|done].
  destruct (decide (i = size)) as [->|]; [|lia].
  rewrite E in Hl. injection Hl as -> ->.
  destruct Hn. by left.
Qed.

(** With every entry of the map still ahead in the array, the index read
    lies within the array: the assertion holds and the loop ends. *)
Lemma evict_loop_total size c :
  capacity c > 0 → covers_from size c →
  ∃ size' c', evict_loop size c = Ok (size', c') ∧ covers_from size' c'.
Proof.
  remember (length (list_ c) - size)%nat as fuel eqn:Hfuel.
  revert size c Hfuel.
  induction fuel as [fuel IH] using lt_wf_ind. intros size c Hfuel Hcap Hcov.
  rewrite evict_loop_step.
  destruct (isFull c) eqn:Hfull; [|eauto].
  assert (map_ c ≠ ∅) as Hne.
  { intros Hempty. unfold isFull in Hfull.
    rewrite Hempty, map_size_empty in Hfull.
    apply bool_decide_eq_true in Hfull. lia. }
  apply map_choose in Hne as (k0 & [e0 v0] & Hk0).
  destruct (Hcov _ _ _ Hk0) as (i & Hi & Hl).
  apply lookup_lt_Some in Hl.
  destruct (list_ c !! size) as [[e k]|] eqn:E.
  - apply (IH (length (list_ c) - S size)%nat).
    + lia.
    + by rewrite delete_if_current_list.
    + by destruct (delete_if_current_frame e k c) as (_ & -> & _).
    + by apply covers_from_next.
  - apply lookup_ge_None in E. lia.
Qed.

(** ** [evict] as a whole *)

Lemma evict_spec c c' :
  evict c = Ok (tt, c') →
  ∃ n, (n ≤ length (list_ c))%nat ∧ c' = consumed n c ∧ isFull c' = false.
Proof.
  unfold evict. intros (size' & c1 & Hloop & Hsplice)%bind_Ok_inv.
  apply evict_loop_spec in Hloop as (_ & Hmax & -> & Hnot).
  injection Hsplice as <-. simpl in *.
  exists size'. rewrite Nat.sub_0_r, drop_0 in *.
  split; [lia|]. by split.
Qed.

Lemma evict_total c :
  capacity c > 0 → covers c → ∃ c', evict c = Ok (tt, c').
Proof.
  intros Hcap Hcov.
  destruct (evict_loop_total 0 c Hcap Hcov) as (size' & c1 & Hloop & _).
  unfold evict. rewrite (bind_Ok _ _ _ _ _ Hloop). eauto.
Qed.

Lemma evict_not_full c : isFull c = false → evict c = Ok (tt, c).
Proof.
  intros H. unfold evict.
  rewrite (bind_Ok _ _ _ _ _ (evict_loop_not_full 0 c H)).
  unfold list_splice0, update. rewrite drop_0. by destruct c.
Qed.

(** ** Consuming a prefix keeps the map within the array *)

Lemma covers_consumed n c : covers c → covers (consumed n c).
Proof.
  intros Hcov key expiration value. simpl.
  intros [Hm Hn]%lookup_purge_Some.
  destruct (Hcov _ _ _ Hm) as (i & _ & Hl).
  destruct (decide (i < n)%nat) as [Hlt|Hge].
  - destruct Hn. apply list_elem_of_lookup. exists i.
    by rewrite lookup_take_lt.
  - exists (i - n)%nat. split; [lia|].
    rewrite lookup_drop. by replace (n + (i - n))%nat with i by lia.
Qed.

Lemma size_consumed n c : (size (map_ (consumed n c)) ≤ size (map_ c))%nat.
Proof. apply purge_size. Qed.

(** ** [scrub], whichever way its guard goes *)

Lemma scrub_eq now c : scrub now c = Ok (tt, after_scrub now c).
Proof.
  unfold after_scrub. case_decide; [by apply scrub_limited | by apply scrub_due].
Qed.

Lemma consumed_0 c : consumed 0 c = c.
Proof. unfold consumed. simpl. rewrite purge_nil, drop_0. by destruct c. Qed.

(** [scrub] consumes a prefix of entries that have all expired. *)
Lemma after_scrub_consumed now c :
  ∃ n, (n ≤ expired_prefix now (list_ c))%nat ∧
       map_ (after_scrub now c) = map_ (consumed n c) ∧
       list_ (after_scrub now c) = list_ (consumed n c).
Proof.
  unfold after_scrub. case_decide.
  - exists 0%nat. rewrite consumed_0. split; [lia | done].
  - by exists (expired_prefix now (list_ c)).
Qed.

Lemma after_scrub_frame now c :
  ttl (after_scrub now c) = ttl c ∧ capacity (after_scrub now c) = capacity c ∧
  interval (after_scrub now c) = interval c.
Proof. unfold after_scrub. by case_decide. Qed.

Lemma elem_of_take_le {A} (l : list A) n m x :
  (n ≤ m)%nat → x ∈ take n l → x ∈ take m l.
Proof.
  intros Hle (i & Hi)%list_elem_of_lookup.
  apply lookup_take_Some in Hi as [Hi Hlt].
  apply list_elem_of_lookup. exists i. rewrite lookup_take_lt; [done | lia].
Qed.

Lemma after_scrub_Some now c k e v :
  map_ (after_scrub now c) !! k = Some (e, v) → map_ c !! k = Some (e, v).
Proof.
  destruct (after_scrub_consumed now c) as (n & Hn & -> & _). simpl.
  by intros [? _]%lookup_purge_Some.
Qed.

(** A live entry is not swept. *)
Lemma after_scrub_live now c k e v :
  map_ c !! k = Some (e, v) → e > now →
  map_ (after_scrub now c) !! k = Some (e, v).
Proof.
  destruct (after_scrub_consumed now c) as (n & Hn & -> & _). simpl.
  intros Hm Hlive. apply lookup_purge_Some. split; [done|]. intros Hin.
  apply (elem_of_take_le _ _ _ _ Hn), expired_prefix_expired in Hin. lia.
Qed.

(** An entry that [scrub] removes had expired. *)
Lemma after_scrub_None now c k e v :
  map_ c !! k = Some (e, v) → map_ (after_scrub now c) !! k = None → e ≤ now.
Proof.
  intros Hm Hnone. destruct (decide (e > now)) as [Hlive|]; [|lia].
  by rewrite (after_scrub_live _ _ _ _ _ Hm Hlive) in Hnone.
Qed.

Lemma after_scrub_size now c :
  (size (map_ (after_scrub now c)) ≤ size (map_ c))%nat.
Proof.
  destruct (after_scrub_consumed now c) as (n & _ & -> & _). apply size_consumed.
Qed.

Lemma after_scrub_covers now c : covers c → covers (after_scrub now c).
Proof.
  intros Hcov. destruct (after_scrub_consumed now c) as (n & _ & Hm & Hl).
  pose proof (covers_consumed n c Hcov) as H.
  unfold covers, covers_from in *. rewrite Hm, Hl. done.
Qed.

(** A second [scrub] at the same instant changes nothing. *)
Lemma after_scrub_idem now c :
  after_scrub now (after_scrub now c) = after_scrub now c.
Proof.
  destruct (decide (rate_limited now c)) as [H1|H1].
  - assert (after_scrub now c = c) as E
      by (unfold after_scrub; by rewrite decide_True).
    by rewrite !E.
  - assert (after_scrub now c = scrubbed now c) as ->
      by (unfold after_scrub; by rewrite decide_False).
    unfold after_scrub. case_decide as H2; [done|].
    unfold scrubbed at 1. cbn [list_ map_ ttl capacity interval scrubbed].
    rewrite expired_prefix_drop. by rewrite purge_nil, drop_0.
Qed.

(** ** [get] and [set] as functions of the object *)

Lemma get_eq key now c : get key now c = Ok (after_get key now c).
Proof.
  unfold get, after_get. rewrite (bind_Ok _ _ _ _ _ (scrub_eq now c)).
  unfold bind, map_get, read.
  destruct (map_ (after_scrub now c) !! key) as [[e v]|]; [|done].
  by case_bool_decide.
Qed.

Lemma set_eq key value now c :
  set key value now c =
  match make_room key now (after_scrub now c) with
  | Ok (_, c') => Ok (tt, stored key value now c')
  | AssertionError => AssertionError
  end.
Proof.
  unfold set. rewrite (bind_Ok _ _ _ _ _ (scrub_eq now c)).
  unfold make_room, bind, read.
  destruct (isFull (after_scrub now c)); [|done].
  destruct (get key now (after_scrub now c)) as [[cached c1]|]; [|done].
  destruct (isNil cached); [|done].
  by destruct (evict c1) as [[[] c2]|].
Qed.

Lemma after_get_frame key now c :
  ttl (after_get key now c).2 = ttl c ∧
  capacity (after_get key now c).2 = capacity c ∧
  interval (after_get key now c).2 = interval c.
Proof.
  unfold after_get. destruct (after_scrub_frame now c) as (Ht & Hc & Hi).
  destruct (map_ (after_scrub now c) !! key) as [[e v]|]; [|done].
  by case_bool_decide.
Qed.

(** [get] only takes entries out of the map. *)
Lemma after_get_lookup key now c k e v :
  map_ (after_get key now c).2 !! k = Some (e, v) →
  map_ (after_scrub now c) !! k = Some (e, v).
Proof.
  unfold after_get. repeat case_match; simpl; try done.
  by intros [_ ?]%lookup_delete_Some.
Qed.

Lemma after_get_list key now c :
  list_ (after_get key now c).2 = list_ (after_scrub now c).
Proof. unfold after_get. by repeat case_match. Qed.

Lemma after_get_size key now c :
  (size (map_ (after_get key now c).2) ≤ size (map_ c))%nat.
Proof.
  transitivity (size (map_ (after_scrub now c))); [|apply after_scrub_size].
  unfold after_get. repeat case_match; simpl; try done.
  apply map_subseteq_size, delete_subseteq.
Qed.

Lemma after_get_covers key now c : covers c → covers (after_get key now c).2.
Proof.
  intros Hcov k e v Hk. rewrite after_get_list.
  apply after_get_lookup in Hk. exact (after_scrub_covers now c Hcov _ _ _ Hk).
Qed.

(** ** The invariant holds of every object in use *)

Lemma constructor_Ok ttl0 capacity0 interval0 c :
  constructor T ttl0 capacity0 interval0 = Ok c ↔
  ttl0 > 0 ∧ capacity0 > 0 ∧
  c = mkCache ttl0 capacity0 (default 10000 interval0) None ∅ [].
Proof.
  unfold constructor. split.
  - destruct (bool_decide_reflect (ttl0 > 0)); [|done].
    destruct (bool_decide_reflect (capacity0 > 0)); [|done].
    simpl. by intros [= <-].
  - intros (? & ? & ->). by rewrite !bool_decide_true.
Qed.

Lemma invariant_constructor ttl0 capacity0 interval0 c :
  constructor T ttl0 capacity0 interval0 = Ok c → invariant c.
Proof.
  intros (Httl & Hcap & ->)%constructor_Ok.
  split; simpl; [done | done | rewrite map_size_empty; lia |].
  intros k e v. simpl. by rewrite lookup_empty.
Qed.

Lemma invariant_after_scrub now c : invariant c → invariant (after_scrub now c).
Proof.
  intros [Httl Hcap Hsize Hcov].
  destruct (after_scrub_frame now c) as (H1 & H2 & _).
  pose proof (after_scrub_size now c).
  split; rewrite ?H1, ?H2; [done | done | lia | by apply after_scrub_covers].
Qed.

Lemma invariant_after_get key now c :
  invariant c → invariant (after_get key now c).2.
Proof.
  intros [Httl Hcap Hsize Hcov].
  destruct (after_get_frame key now c) as (H1 & H2 & _).
  pose proof (after_get_size key now c).
  split; rewrite ?H1, ?H2; [done | done | lia | by apply after_get_covers].
Qed.

Lemma invariant_consumed n c : invariant c → invariant (consumed n c).
Proof.
  intros [Httl Hcap Hsize Hcov]. pose proof (size_consumed n c).
  split; simpl in *; [done | done | lia | by apply covers_consumed].
Qed.

Lemma invariant_evict c :
  invariant c →
  ∃ c', evict c = Ok (tt, c') ∧ invariant c' ∧ isFull c' = false ∧
        ttl c' = ttl c ∧ capacity c' = capacity c.
Proof.
  intros Hinv.
  destruct (evict_total c (inv_capacity _ Hinv) (inv_covers _ Hinv)) as [c' Hc'].
  exists c'. split; [done|].
  apply evict_spec in Hc' as (n & _ & -> & Hnot).
  split; [by apply invariant_consumed | done].
Qed.

Lemma isFull_false c : isFull c = false ↔ Z.of_nat (size (map_ c)) < capacity c.
Proof. unfold isFull. rewrite bool_decide_eq_false. lia. Qed.

Lemma isFull_true c : isFull c = true ↔ capacity c ≤ Z.of_nat (size (map_ c)).
Proof. unfold isFull. rewrite bool_decide_eq_true. lia. Qed.

(** A hit of [get] leaves the entry in place. *)
Lemma after_get_hit key now c value :
  (after_get key now c).1 = Some value →
  (after_get key now c).2 = after_scrub now c ∧
  ∃ e, e > now ∧ map_ (after_scrub now c) !! key = Some (e, value).
Proof.
  unfold after_get.
  destruct (map_ (after_scrub now c) !! key) as [[e v]|]; [|done].
  case_bool_decide; [|done]. simpl. intros [= ->]. eauto.
Qed.

(** The step of [set] that makes room never throws on an object in use; the
    map then has a free slot, or holds the key already. *)
Lemma make_room_invariant key now c :
  invariant c →
  ∃ c', make_room key now c = Ok (tt, c') ∧ invariant c' ∧
        ttl c' = ttl c ∧ capacity c' = capacity c ∧
        (isFull c' = false ∨ is_Some (map_ c' !! key)).
Proof.
  intros Hinv. unfold make_room, bind, read.
  destruct (isFull c) eqn:Hfull; [|by eauto 10].
  rewrite get_eq.
  pose proof (invariant_after_get key now c Hinv) as Hinv'.
  destruct (after_get_frame key now c) as (Hf1 & Hf2 & _).
  destruct (after_get key now c) as [cached c1] eqn:Hget. simpl in *.
  destruct cached as [value|]; simpl.
  - destruct (nil_value value).
    + destruct (invariant_evict c1 Hinv') as (c2 & -> & ? & ? & ? & ?).
      exists c2. split_and!; [done | done | congruence | congruence | by left].
    + exists c1. split_and!; [done..|]. right.
      pose proof (after_get_hit key now c value) as Hhit.
      rewrite Hget in Hhit. simpl in Hhit.
      destruct (Hhit eq_refl) as (-> & e & _ & ->). by eexists.
  - destruct (invariant_evict c1 Hinv') as (c2 & -> & ? & ? & ? & ?).
    exists c2. split_and!; [done | done | congruence | congruence | by left].
Qed.

Lemma invariant_stored key value now c :
  invariant c → isFull c = false ∨ is_Some (map_ c !! key) →
  invariant (stored key value now c).
Proof.
  intros [Httl Hcap Hsize Hcov] Hroom. split; simpl; [done | done | |].
  - destruct (map_ c !! key) as [old|] eqn:Hkey.
    + by rewrite map_size_insert_Some.
    + rewrite map_size_insert_None by done.
      destruct Hroom as [Hnot%isFull_false|[? [=]]]. lia.
  - intros k e v. simpl. destruct (decide (k = key)) as [->|Hne].
    + rewrite lookup_insert_eq. intros [= <- <-].
      exists (length (list_ c)). split; [lia|].
      by rewrite lookup_app_r, Nat.sub_diag.
    + rewrite lookup_insert_ne by done. intros Hk.
      destruct (Hcov _ _ _ Hk) as (i & Hi & Hl).
      exists i. split; [done|].
      rewrite lookup_app_l; [done | by eapply lookup_lt_Some].
Qed.

Lemma invariant_set key value now c :
  invariant c → ∃ c', set key value now c = Ok (tt, c') ∧ invariant c'.
Proof.
  intros Hinv. rewrite set_eq.
  destruct (make_room_invariant key now _ (invariant_after_scrub now c Hinv))
    as (c1 & -> & Hinv1 & _ & _ & Hroom).
  eexists. split; [done|]. by apply invariant_stored.
Qed.

Lemma invariant_perform x c c' :
  invariant c → perform x c = Ok (tt, c') → invariant c'.
Proof.
  intros Hinv. destruct x as [key value time|key time| |time|]; simpl.
  - destruct (invariant_set key value time c Hinv) as (c1 & -> & H).
    by intros [= <-].
  - unfold bind. rewrite get_eq.
    pose proof (invariant_after_get key time c Hinv).
    destruct (after_get key time c). by intros [= <-].
  - by intros [= <-].
  - rewrite scrub_eq. intros [= <-]. by apply invariant_after_scrub.
  - destruct (invariant_evict c Hinv) as (c1 & -> & H & _).
    by intros [= <-].
Qed.

Lemma reachable_invariant c : reachable c → invariant c.
Proof.
  induction 1 as [ttl0 capacity0 interval0 c Hnew | x c c' _ IH Hcall].
  - by eapply invariant_constructor.
  - by eapply invariant_perform.
Qed.

(** ** How [set] proceeds *)

Lemma make_room_cases key now c c' :
  make_room key now c = Ok (tt, c') →
  (isFull c = false ∧ c' = c) ∨
  (isFull c = true ∧ isNil (after_get key now c).1 = false ∧
   c' = (after_get key now c).2) ∨
  (isFull c = true ∧ isNil (after_get key now c).1 = true ∧
   evict (after_get key now c).2 = Ok (tt, c')).
Proof.
  unfold make_room, bind, read.
  destruct (isFull c); [|intros [= <-]; by left].
  rewrite get_eq. destruct (after_get key now c) as [cached c1]. simpl.
  destruct (isNil cached); [by auto|].
  intros [= <-]. by auto.
Qed.

Lemma last_after_scrub now c :
  last_ (after_scrub now c) = last_ c ∨ last_ (after_scrub now c) = Some now.
Proof. unfold after_scrub. case_decide; auto. Qed.

Lemma last_after_get key now c :
  last_ (after_get key now c).2 = last_ (after_scrub now c).
Proof. unfold after_get. by repeat case_match. Qed.

Lemma last_evict c c' : evict c = Ok (tt, c') → last_ c' = last_ c.
Proof. by intros (n & _ & -> & _)%evict_spec. Qed.

Lemma last_make_room key now c c' :
  make_room key now c = Ok (tt, c') →
  last_ c' = last_ c ∨ last_ c' = Some now.
Proof.
  intros [[_ ->]|[(_ & _ & ->)|(_ & _ & ->%last_evict)]]%make_room_cases;
    [by left | |]; rewrite last_after_get; apply last_after_scrub.
Qed.

(** On an object in use [set] returns; the entry it stores expires [ttl]
    after [now]. *)
Lemma set_Ok key value now c :
  invariant c →
  ∃ c1, make_room key now (after_scrub now c) = Ok (tt, c1) ∧
        set key value now c = Ok (tt, stored key value now c1) ∧
        invariant (stored key value now c1) ∧
        ttl c1 = ttl c ∧ capacity c1 = capacity c.
Proof.
  intros Hinv. rewrite set_eq.
  destruct (make_room_invariant key now _ (invariant_after_scrub now c Hinv))
    as (c1 & Hroom & Hinv1 & Httl & Hcap & Hfree).
  destruct (after_scrub_frame now c) as (Ht & Hc & _).
  exists c1. rewrite Hroom.
  split_and!; [done | done | by apply invariant_stored | congruence..].
Qed.

Lemma perform_Ok x c :
  invariant c →
  ∃ c', perform x c = Ok (tt, c') ∧ invariant c' ∧
        ttl c' = ttl c ∧ capacity c' = capacity c.
Proof.
  intros Hinv. destruct x as [key value time|key time| |time|]; simpl.
  - destruct (set_Ok key value time c Hinv) as (c1 & _ & -> & ? & ? & ?).
    by eexists.
  - unfold bind. rewrite get_eq.
    pose proof (invariant_after_get key time c Hinv).
    destruct (after_get_frame key time c) as (? & ? & _).
    destruct (after_get key time c). by eexists.
  - by exists c.
  - rewrite scrub_eq. destruct (after_scrub_frame time c) as (? & ? & _).
    eexists. split_and!; [done | by apply invariant_after_scrub | done..].
  - destruct (invariant_evict c Hinv) as (c1 & -> & ? & _ & ? & ?).
    by exists c1.
Qed.

Lemma perform_all_Ok xs c :
  invariant c →
  ∃ c', perform_all xs c = Ok (tt, c') ∧ invariant c' ∧
        ttl c' = ttl c ∧ capacity c' = capacity c.
Proof.
  revert c. induction xs as [|x xs IH]; intros c Hinv; simpl.
  - by exists c.
  - destruct (perform_Ok x c Hinv) as (c1 & Hx & Hinv1 & Ht & Hc).
    rewrite (bind_Ok _ _ _ _ _ Hx).
    destruct (IH c1 Hinv1) as (c2 & -> & ? & ? & ?).
    exists c2. split_and!; [done | done | congruence..].
Qed.

Lemma perform_all_app xs ys c :
  perform_all (xs ++ ys) c =
  match perform_all xs c with
  | Ok (_, c') => perform_all ys c'
  | AssertionError => AssertionError
  end.
Proof.
  revert c. induction xs as [|x xs IH]; intros c; simpl; [done|].
  unfold bind. destruct (perform x c) as [[[] c1]|]; [apply IH | done].
Qed.

Lemma perform_all_reachable xs c c' :
  reachable c → perform_all xs c = Ok (tt, c') → reachable c'.
Proof.
  revert c. induction xs as [|x xs IH]; intros c Hc; simpl.
  - by intros [= <-].
  - intros (a & c1 & Hx & Hxs)%bind_Ok_inv. destruct a.
    eapply IH; [|done]. by eapply reachable_call.
Qed.

(** ** Reading an entry that has expired, or not *)

Lemma after_get_expired key now c e v :
  map_ c !! key = Some (e, v) → e ≤ now →
  (after_get key now c).1 = None ∧
  map_ (after_get key now c).2 !! key = None ∧
  (rate_limited now c →
   (after_get key now c).2 = set_map (delete key (map_ c)) c).
Proof.
  intros Hkey Hexp. unfold after_get.
  destruct (map_ (after_scrub now c) !! key) as [[e' v']|] eqn:E.
  - apply after_scrub_Some in E as E'. rewrite Hkey in E'.
    injection E' as <- <-. rewrite bool_decide_false by lia. simpl.
    split; [done|]. split; [apply lookup_delete_eq|].
    intros Hlim. unfold after_scrub. by rewrite decide_True.
  - simpl. split; [done|]. split; [done|].
    intros Hlim. unfold after_scrub in E |- *. rewrite decide_True in E by done.
    congruence.
Qed.

Lemma after_get_live key now c e v :
  map_ c !! key = Some (e, v) → e > now →
  after_get key now c = (Some v, after_scrub now c).
Proof.
  intros Hkey Hlive. unfold after_get.
  rewrite (after_scrub_live _ _ _ _ _ Hkey Hlive).
  by rewrite bool_decide_true.
Qed.

Lemma after_get_Some key now c v :
  (after_get key now c).1 = Some v →
  ∃ e, map_ c !! key = Some (e, v) ∧ e > now.
Proof.
  intros (_ & e & Hlive & Hkey%after_scrub_Some)%after_get_hit. eauto.
Qed.

Lemma interval_make_room key now c c' :
  make_room key now c = Ok (tt, c') → interval c' = interval c.
Proof.
  destruct (after_get_frame key now c) as (_ & _ & Hi).
  intros [[_ ->]|[(_ & _ & ->)|(_ & _ & H)]]%make_room_cases; [done..|].
  by apply evict_spec in H as (n & _ & -> & _).
Qed.

Lemma set_last_interval key value now c c' :
  set key value now c = Ok (tt, c') →
  interval c' = interval c ∧
  (last_ c' = last_ (after_scrub now c) ∨ last_ c' = Some now).
Proof.
  rewrite set_eq.
  destruct (make_room key now (after_scrub now c)) as [[[] c1]|] eqn:Hroom;
    [|done].
  intros [= <-]. simpl.
  destruct (after_scrub_frame now c) as (_ & _ & Hi).
  split; [by rewrite (interval_make_room _ _ _ _ Hroom)|].
  by apply last_make_room in Hroom.
Qed.

Lemma last_scrubbed now c :
  ¬ rate_limited now c → last_ (after_scrub now c) = Some now.
Proof. intros H. unfold after_scrub. by rewrite decide_False. Qed.

(** ** Each method keeps the map within the array *)

Lemma covers_stored key value now c : covers c → covers (stored key value now c).
Proof.
  intros Hcov k e v. simpl. destruct (decide (k = key)) as [->|Hne].
  - rewrite lookup_insert_eq. intros [= <- <-].
    exists (length (list_ c)). split; [lia|].
    by rewrite lookup_app_r, Nat.sub_diag.
  - rewrite lookup_insert_ne by done. intros Hk.
    destruct (Hcov _ _ _ Hk) as (i & Hi & Hl).
    exists i. split; [done|].
    rewrite lookup_app_l; [done | by eapply lookup_lt_Some].
Qed.

Lemma covers_evict c c' : covers c → evict c = Ok (tt, c') → covers c'.
Proof. intros Hcov (n & _ & -> & _)%evict_spec. by apply covers_consumed. Qed.

Lemma covers_make_room key now c c' :
  covers c → make_room key now c = Ok (tt, c') → covers c'.
Proof.
  intros Hcov [[_ ->]|[(_ & _ & ->)|(_ & _ & H)]]%make_room_cases.
  - done.
  - by apply after_get_covers.
  - eapply covers_evict; [|done]. by apply after_get_covers.
Qed.

Lemma covers_set key value now c c' :
  covers c → set key value now c = Ok (tt, c') → covers c'.
Proof.
  intros Hcov. rewrite set_eq.
  destruct (make_room key now (after_scrub now c)) as [[[] c1]|] eqn:Hroom;
    [|done].
  intros [= <-]. apply covers_stored.
  eapply covers_make_room; [|done]. by apply after_scrub_covers.
Qed.

(** ** What a pass leaves of the map *)

Lemma lookup_consumed n c k :
  map_ (consumed n c) !! k =
  match map_ c !! k with
  | Some (e, v) => if decide ((e, k) ∈ take n (list_ c)) then None else Some (e, v)
  | None => None
  end.
Proof.
  simpl. destruct (map_ c !! k) as [[e v]|] eqn:E.
  - case_decide as Hin.
    + apply lookup_purge_None. right. eauto.
    + by apply lookup_purge_Some.
  - apply lookup_purge_None. by left.
Qed.

Lemma scrub_consumed now c c' :
  scrub now c = Ok (tt, c') →
  ∃ n, (n ≤ expired_prefix now (list_ c))%nat ∧
       map_ c' = map_ (consumed n c) ∧ list_ c' = list_ (consumed n c).
Proof. rewrite scrub_eq. intros [= <-]. apply after_scrub_consumed. Qed.

(** ** Overwriting a live key *)

Lemma make_room_not_full key now c :
  isFull c = false → make_room key now c = Ok (tt, c).
Proof. intros H. unfold make_room, bind, read. by rewrite H. Qed.

(** The key is live and its value is not nil: [get] returns it and [evict]
    is not called. *)
Lemma make_room_live key now c e v :
  map_ c !! key = Some (e, v) → e > now → nil_value v = false →
  make_room key now (after_scrub now c) = Ok (tt, after_scrub now c).
Proof.
  intros Hkey Hlive Hnil. unfold make_room, bind, read.
  destruct (isFull (after_scrub now c)); [|done].
  rewrite get_eq.
  rewrite (after_get_live key now (after_scrub now c) e v);
    [| by apply after_scrub_live | done].
  simpl. by rewrite Hnil, after_scrub_idem.
Qed.

Lemma after_scrub_none_expired now c :
  (∀ k e v, map_ c !! k = Some (e, v) → e > now) →
  map_ (after_scrub now c) = map_ c.
Proof.
  intros Hlive. apply map_eq. intros k.
  destruct (map_ c !! k) as [[e v]|] eqn:E.
  - apply after_scrub_live; eauto.
  - destruct (map_ (after_scrub now c) !! k) as [[e v]|] eqn:E'; [|done].
    apply after_scrub_Some in E'. congruence.
Qed.

(** ** [evict] on a full map: the frontmost current entry goes *)

Lemma evict_loop_frontmost stale : ∀ index c e k v rest,
  drop index (list_ c) = stale ++ (e, k) :: rest →
  Forall (λ item, ¬ current c item) stale →
  map_ c !! k = Some (e, v) →
  Z.of_nat (size (map_ c)) = capacity c →
  evict_loop index c =
    Ok ((index + length stale + 1)%nat, set_map (delete k (map_ c)) c).
Proof.
  induction stale as [|[e0 k0] stale IH]; intros index c e k v rest Hdrop Hstale Hk Hsize.
  - assert (list_ c !! index = Some (e, k)) as Hitem.
    { rewrite <- (Nat.add_0_r index), <- lookup_drop, Hdrop. done. }
    rewrite evict_loop_step.
    rewrite (proj2 (isFull_true c)) by lia. rewrite Hitem.
    rewrite (delete_if_current_hit e k c v Hk).
    rewrite evict_loop_not_full.
    + do 2 f_equal. simpl. lia.
    + apply isFull_false. simpl.
      rewrite map_size_delete_Some by done.
      assert (size (map_ c) ≠ 0%nat); [|lia].
      intros Hzero%map_size_empty_inv. by rewrite Hzero in Hk.
  - assert (list_ c !! index = Some (e0, k0)) as Hitem.
    { rewrite <- (Nat.add_0_r index), <- lookup_drop, Hdrop. done. }
    apply Forall_cons in Hstale as [Hstale0 Hstale].
    rewrite evict_loop_step.
    rewrite (proj2 (isFull_true c)) by lia. rewrite Hitem.
    rewrite (delete_if_current_stale e0 k0 c Hstale0).
    rewrite (IH (S index) c e k v rest); [| |done..].
    + do 2 f_equal. simpl. lia.
    + rewrite (drop_S _ _ _ Hitem) in Hdrop. by injection Hdrop.
Qed.

Lemma evict_frontmost c stale e k v rest :
  list_ c = stale ++ (e, k) :: rest →
  Forall (λ item, ¬ current c item) stale →
  map_ c !! k = Some (e, v) →
  Z.of_nat (size (map_ c)) = capacity c →
  evict c = Ok (tt, set_list rest (set_map (delete k (map_ c)) c)).
Proof.
  intros Hlist Hstale Hk Hsize. unfold evict.
  rewrite (bind_Ok _ _ _ _ _
             (evict_loop_frontmost stale 0 c e k v rest Hlist Hstale Hk Hsize)).
  unfold list_splice0, update. simpl. rewrite Hlist. do 3 f_equal.
  rewrite Nat.add_1_r, (cons_middle _ stale), app_assoc.
  apply drop_app_length'. rewrite length_app. simpl. lia.
Qed.

Lemma current_dec c item : current c item ∨ ¬ current c item.
Proof.
  destruct item as [e k]. unfold current. simpl.
  destruct (map_ c !! k) as [[e' v]|]; [|right; by intros [? [=]]].
  destruct (decide (e' = e)) as [->|]; [left; eauto | right].
  intros [? [=]]. done.
Qed.

(** The array of a cache whose map is not empty has a frontmost current
    entry. *)
Lemma frontmost_current c (l : list (Z * string)) :
  (∃ item, item ∈ l ∧ current c item) →
  ∃ stale item rest,
    l = stale ++ item :: rest ∧
    Forall (λ item, ¬ current c item) stale ∧ current c item.
Proof.
  induction l as [|x l IH]; intros (item & Hin & Hcur).
  - by apply elem_of_nil in Hin.
  - destruct (current_dec c x) as [Hx|Hx].
    + exists [], x, l. by split_and!.
    + apply elem_of_cons in Hin as [->|Hin]; [done|].
      destruct IH as (stale & y & rest & -> & Hstale & Hy); [eauto|].
      exists (x :: stale), y, rest. split_and!; [done | by constructor | done].
Qed.

(** ** Setting distinct keys while none expires: first in, first out *)

Lemma holds_empty c : map_ c = ∅ → list_ c = [] → holds c [].
Proof.
  intros Hm Hl. split; simpl.
  - done.
  - by rewrite Hm, map_size_empty.
  - by intros k v t ?%elem_of_nil.
  - intros k _. by rewrite Hm, lookup_empty.
Qed.

Lemma after_scrub_fresh now c :
  (∀ e k, (e, k) ∈ list_ c → e > now) →
  map_ (after_scrub now c) = map_ c ∧ list_ (after_scrub now c) = list_ c.
Proof.
  intros Hfresh. destruct (after_scrub_consumed now c) as (n & Hn & -> & ->).
  rewrite (expired_prefix_fresh _ _ Hfresh) in Hn.
  assert (n = 0%nat) as -> by lia. by rewrite consumed_0.
Qed.

Lemma holds_after_scrub now c xs :
  holds c xs → Forall (λ x, x.2 + ttl c > now) xs →
  holds (after_scrub now c) xs.
Proof.
  intros [Hl Hs Hin Hout] Hfresh.
  destruct (after_scrub_frame now c) as (Httl & _ & _).
  destruct (after_scrub_fresh now c) as [Hm' Hl'].
  { intros e k. rewrite Hl. intros (x & [= -> ->] & Hx)%list_elem_of_fmap.
    by apply (proj1 (Forall_forall _ _) Hfresh). }
  split; rewrite ?Hm', ?Hl', ?Httl; done.
Qed.

Lemma holds_stored key value now c xs :
  holds c xs → key ∉ entry_key <$> xs →
  holds (stored key value now c) (xs ++ [(key, value, now)]).
Proof.
  intros [Hl Hs Hin Hout] Hnew. split; simpl.
  - by rewrite fmap_app, Hl.
  - rewrite map_size_insert_None by by apply Hout.
    rewrite length_app, Hs. simpl. lia.
  - intros k v t [Hx|[= -> -> ->]%list_elem_of_singleton]%elem_of_app.
    + rewrite lookup_insert_ne; [by apply Hin|].
      intros ->. apply Hnew.
      by apply (list_elem_of_fmap_2 entry_key) in Hx.
    + apply lookup_insert_eq.
  - intros k Hk. rewrite fmap_app, elem_of_app in Hk.
    rewrite lookup_insert_ne.
    + apply Hout. tauto.
    + intros ->. apply Hk. right. simpl. by left.
Qed.

Lemma holds_evict c x xs :
  holds c (x :: xs) → NoDup (entry_key <$> x :: xs) →
  Z.of_nat (length (x :: xs)) = capacity c →
  ∃ c', evict c = Ok (tt, c') ∧ holds c' xs ∧
        ttl c' = ttl c ∧ capacity c' = capacity c.
Proof.
  intros [Hl Hs Hin Hout] [Hx Hxs]%NoDup_cons Hfull.
  destruct x as [[k v] t]. simpl in *.
  eexists. split.
  { apply (evict_frontmost c [] (t + ttl c) k v _ Hl); [done | | lia].
    apply Hin. by left. }
  split; [|done]. split; simpl.
  - done.
  - rewrite map_size_delete_Some; [lia|]. rewrite (Hin k v t); [done | by left].
  - intros k' v' t' Hx'. rewrite lookup_delete_ne.
    + apply Hin. by right.
    + intros ->. apply Hx. by apply (list_elem_of_fmap_2 entry_key) in Hx'.
  - intros k' Hk'. destruct (decide (k' = k)) as [->|Hne].
    + apply lookup_delete_eq.
    + rewrite lookup_delete_ne by done. apply Hout.
      intros [->|?]%elem_of_cons; done.
Qed.

Lemma make_room_miss key now c :
  isFull (after_scrub now c) = true →
  map_ (after_scrub now c) !! key = None →
  make_room key now (after_scrub now c) = evict (after_scrub now c).
Proof.
  intros Hfull Hmiss. unfold make_room, bind, read. rewrite Hfull, get_eq.
  unfold after_get. by rewrite after_scrub_idem, Hmiss.
Qed.

(** A [set] of a new key while no entry has expired: the key enters at the
    back; when the map is full the oldest entry leaves. *)
Lemma holds_set key value now c xs :
  holds c xs → Forall (λ x, x.2 + ttl c > now) xs →
  key ∉ entry_key <$> xs → NoDup (entry_key <$> xs) →
  Z.of_nat (length xs) ≤ capacity c → capacity c > 0 →
  ∃ c', set key value now c = Ok (tt, c') ∧
        holds c' (window (Z.to_nat (capacity c)) (xs ++ [(key, value, now)])) ∧
        ttl c' = ttl c ∧ capacity c' = capacity c.
Proof.
  intros Hholds Hfresh Hnew Hdup Hlen Hcap.
  pose proof (holds_after_scrub now c xs Hholds Hfresh) as Hcs.
  destruct (after_scrub_frame now c) as (Httl & Hcapacity & _).
  rewrite set_eq. unfold window. rewrite length_app. simpl.
  destruct (decide (Z.of_nat (length xs) < capacity c)) as [Hroom|Hfull].
  - rewrite make_room_not_full.
    + eexists. split; [done|]. split; [|done].
      replace (length xs + 1 - Z.to_nat (capacity c))%nat with 0%nat by lia.
      rewrite drop_0. by apply holds_stored.
    + apply isFull_false. rewrite (holds_size _ _ Hcs). lia.
  - destruct xs as [|x xs]; [simpl in *; lia|].
    rewrite make_room_miss.
    + destruct (holds_evict _ x xs Hcs Hdup) as (c2 & -> & Hc2 & Ht2 & Hcap2).
      { rewrite Hcapacity. lia. }
      eexists. split; [done|]. split; [|simpl; split; congruence].
      replace (length (x :: xs) + 1 - Z.to_nat (capacity c))%nat with 1%nat
        by (simpl in *; lia).
      simpl. rewrite drop_0. apply holds_stored; [done|].
      intros Hin. apply Hnew. by right.
    + apply isFull_true. rewrite (holds_size _ _ Hcs). lia.
    + by apply (holds_out _ _ Hcs).
Qed.

Lemma window_snoc {A} n (l : list A) x :
  (0 < n)%nat → window n (window n l ++ [x]) = window n (l ++ [x]).
Proof.
  intros Hn. unfold window. rewrite !length_app, length_drop. simpl.
  destruct (decide (length l < n)%nat).
  - replace (length l - n)%nat with 0%nat by lia.
    rewrite drop_0. f_equal. lia.
  - rewrite !drop_app_le by (rewrite ?length_drop; lia).
    rewrite drop_drop. do 2 f_equal. lia.
Qed.

Lemma holds_sets todo : ∀ done c,
  holds c (window (Z.to_nat (capacity c)) done) →
  NoDup (entry_key <$> done ++ todo) →
  none_expired (ttl c) (done ++ todo) →
  capacity c > 0 →
  ∃ c', perform_all (sets todo) c = Ok (tt, c') ∧
        holds c' (window (Z.to_nat (capacity c)) (done ++ todo)) ∧
        ttl c' = ttl c ∧ capacity c' = capacity c.
Proof.
  induction todo as [|[[k v] t] todo IH]; intros done c Hholds Hdup Hfresh Hcap.
  - exists c. by rewrite app_nil_r.
  - set (n := Z.to_nat (capacity c)) in *.
    assert (window n done ⊆ done) as Hsub by apply subseteq_drop.
    pose proof Hdup as Hdup'.
    rewrite fmap_app in Hdup'. apply NoDup_app in Hdup' as (Hdone & Hnew & _).
    destruct (holds_set k v t c (window n done)) as (c1 & Hset & Hc1 & Ht1 & Hcap1).
    + done.
    + apply Forall_forall. intros x Hx%Hsub.
      apply (StronglySorted_app_1_elem_of _ _ _ x (k, v, t) Hfresh Hx). by left.
    + intros (x & Hk & Hx%Hsub)%list_elem_of_fmap.
      apply (Hnew k); [|by left].
      apply list_elem_of_fmap. by exists x.
    + unfold window. rewrite fmap_drop.
      eapply sublist_NoDup; [done | apply sublist_drop].
    + unfold window. rewrite length_drop. lia.
    + done.
    + simpl. rewrite (bind_Ok _ _ _ _ _ Hset). fold (sets todo).
      fold n in Hc1. rewrite window_snoc in Hc1 by lia.
      destruct (IH (done ++ [(k, v, t)]) c1) as (c2 & Hrun & Hc2 & Ht2 & Hcap2).
      * by rewrite Hcap1.
      * by rewrite <- app_assoc.
      * by rewrite Ht1, <- app_assoc.
      * lia.
      * exists c2. rewrite Hcap1, <- app_assoc in Hc2.
        split_and!; [done | done | congruence..].
Qed.

Lemma holds_get_in c xs k v t now :
  holds c xs → (k, v, t) ∈ xs → t + ttl c > now →
  get k now c = Ok (Some v, after_scrub now c).
Proof.
  intros Hc Hin Hlive. rewrite get_eq. f_equal.
  eapply after_get_live; [by apply (holds_in _ _ Hc) | done].
Qed.

Lemma holds_get_out c xs k now :
  holds c xs → k ∉ entry_key <$> xs →
  get k now c = Ok (None, after_scrub now c).
Proof.
  intros Hc Hout%(holds_out _ _ Hc). rewrite get_eq. f_equal. unfold after_get.
  destruct (map_ (after_scrub now c) !! k) as [[e v]|] eqn:E; [|done].
  apply after_scrub_Some in E. congruence.
Qed.

Lemma window_all {A} n (l : list A) : (length l ≤ n)%nat → window n l = l.
Proof.
  intros H. unfold window.
  replace (length l - n)%nat with 0%nat by lia. apply drop_0.
Qed.

(** The first [n + 1] distinct keys set on an empty cache of capacity [n]. *)
Lemma first_in_first_out ttl0 n interval0 x1 rest :
  ttl0 > 0 → (0 < n)%nat → length rest = n →
  NoDup (entry_key <$> x1 :: rest) → none_expired ttl0 (x1 :: rest) →
  ∃ c0 c,
    constructor T ttl0 (Z.of_nat n) interval0 = Ok c0 ∧
    perform_all (sets (x1 :: rest)) c0 = Ok (tt, c) ∧
    holds c rest ∧ ttl c = ttl0.
Proof.
  intros Httl Hn Hlen Hdup Hfresh.
  set (c0 := mkCache ttl0 (Z.of_nat n) (default 10000 interval0) None ∅ [] : Cache T).
  destruct (holds_sets (x1 :: rest) [] c0) as (c & Hrun & Hc & Ht & _).
  - by apply holds_empty.
  - done.
  - done.
  - simpl. lia.
  - exists c0, c. split; [apply constructor_Ok; split_and!; [done | lia | done]|].
    split; [done|]. split; [|done].
    simpl in Hc. rewrite Nat2Z.id in Hc. unfold window in Hc. simpl in Hc.
    rewrite Hlen in Hc.
    replace (S n - n)%nat with 1%nat in Hc by lia. simpl in Hc.
    by rewrite drop_0 in Hc.
Qed.

(** A key set again at another time: the array entry of its earlier [set]
    is stale, and the key is evicted at the place of its later [set]. *)
Lemma reset_at_other_time ttl0 interval0 a b d va vb va' vd t0 t1 t2 t3 :
  ttl0 > 0 → a ≠ b → a ≠ d → b ≠ d → t2 ≠ t0 →
  t0 + ttl0 > t1 → t0 + ttl0 > t2 → t0 + ttl0 > t3 →
  t1 + ttl0 > t2 → t1 + ttl0 > t3 → t2 + ttl0 > t3 →
  ∃ c0 c,
    constructor T ttl0 2 interval0 = Ok c0 ∧
    perform_all (sets [(a, va, t0); (b, vb, t1); (a, va', t2); (d, vd, t3)]) c0
      = Ok (tt, c) ∧
    holds c [(a, va', t2); (d, vd, t3)] ∧ ttl c = ttl0.
Proof.
  intros Httl Hab Had Hbd Ht H01 H02 H03 H12 H13 H23.
  set (c0 := mkCache ttl0 2 (default 10000 interval0) None ∅ [] : Cache T).
  exists c0.
  (* the first two calls fill the map *)
  destruct (holds_sets [(a, va, t0); (b, vb, t1)] [] c0)
    as (c2 & Hrun2 & Hc2 & Httl2 & Hcap2); [by apply holds_empty | | | done |].
  { simpl. apply NoDup_cons. split; [by intros ?%list_elem_of_singleton|].
    apply NoDup_singleton. }
  { repeat constructor. simpl. lia. }
  simpl in Httl2, Hcap2. rewrite window_all in Hc2 by (simpl; lia).
  simpl in Hc2.
  assert (Forall (λ x, x.2 + ttl c2 > t2) [(a, va, t0); (b, vb, t1)]) as Hlive2
    by (rewrite Httl2; repeat constructor; simpl; lia).
  pose proof (holds_after_scrub t2 c2 _ Hc2 Hlive2) as Hcs2.
  destruct (after_scrub_frame t2 c2) as (Hts2 & Hcaps2 & _).
  (* the third call sets [a] again: [get] finds it *)
  assert (map_ (after_scrub t2 c2) !! a = Some (t0 + ttl0, va)) as Ha.
  { rewrite <- Httl2, <- Hts2. apply (holds_in _ _ Hcs2). by left. }
  assert (∃ c3, set a va' t2 c2 = Ok (tt, c3) ∧ ttl c3 = ttl0 ∧ capacity c3 = 2 ∧
            Z.of_nat (size (map_ c3)) = 2 ∧
            map_ c3 !! a = Some (t2 + ttl0, va') ∧
            map_ c3 !! b = Some (t1 + ttl0, vb) ∧
            (∀ k, k ≠ a → k ≠ b → map_ c3 !! k = None) ∧
            ∃ stale, list_ c3 = stale ++ [(t1 + ttl0, b); (t2 + ttl0, a)] ∧
                     Forall (λ item, ¬ current c3 item) stale ∧
                     Forall (λ item, item.1 > t3) stale)
    as (c3 & Hset3 & Httl3 & Hcap3 & Hsize3 & Ha3 & Hb3 & Hout3 &
        stale & Hl3 & Hstale & Hstale3).
  { rewrite set_eq. unfold make_room, bind, read.
    rewrite (proj2 (isFull_true _))
      by (rewrite (holds_size _ _ Hcs2), Hcaps2, Hcap2; simpl; lia).
    rewrite get_eq, (after_get_live a t2 _ (t0 + ttl0) va Ha) by lia.
    rewrite after_scrub_idem. simpl.
    destruct (nil_value va).
    - (* a nil value: [evict] runs and takes [a] out first *)
      destruct (holds_evict _ _ _ Hcs2) as (c' & -> & Hc' & Httl' & Hcap').
      { simpl. apply NoDup_cons. split; [by intros ?%list_elem_of_singleton|].
        apply NoDup_singleton. }
      { simpl. lia. }
      pose proof (holds_stored a va' t2 c' _ Hc') as Hst.
      eexists. split; [done|].
      destruct Hst as [Hl Hs Hin Hout].
      { simpl. by intros ?%list_elem_of_singleton. }
      assert (ttl c' = ttl0) as Htt by congruence.
      simpl in *. rewrite Htt in *.
      split_and!; [done | congruence | by rewrite Hs | | | |].
      + apply Hin. right. by left.
      + apply Hin. by left.
      + intros k Hka Hkb. apply Hout.
        intros [->|[->|?%elem_of_nil]%elem_of_cons]%elem_of_cons; done.
      + exists []. by split_and!.
    - (* otherwise the old array entry of [a] stays, stale *)
      eexists. split; [done|].
      destruct Hcs2 as [Hl Hs Hin Hout]. simpl in *.
      rewrite Hts2, Httl2 in *.
      split_and!; [done | congruence | | | | |].
      + rewrite map_size_insert_Some by by rewrite Ha. by rewrite Hs.
      + apply lookup_insert_eq.
      + rewrite lookup_insert_ne by done. apply Hin. right. by left.
      + intros k Hka Hkb. rewrite lookup_insert_ne by done. apply Hout.
        intros [->|[->|?%elem_of_nil]%elem_of_cons]%elem_of_cons; done.
      + exists [(t0 + ttl0, a)]. split; [by rewrite Hl|].
        split; [|repeat constructor; simpl; lia].
        repeat constructor. intros [v Hv]. simpl in Hv.
        rewrite lookup_insert_eq in Hv. injection Hv as Hv _. lia. }
  (* the fourth call finds the map full and evicts [b] *)
  destruct (after_scrub_fresh t3 c3) as [Hm4 Hl4].
  { intros e k. rewrite Hl3. intros [Hin|Hin]%elem_of_app.
    - by apply (proj1 (Forall_forall _ _) Hstale3 (e, k)).
    - apply elem_of_cons in Hin as [[= -> ->]|Hin]; [lia|].
      apply list_elem_of_singleton in Hin as [= -> ->]. lia. }
  destruct (after_scrub_frame t3 c3) as (Hts3 & Hcaps3 & _).
  assert (set d vd t3 c3 =
          Ok (tt, stored d vd t3
                    (set_list [(t2 + ttl0, a)]
                       (set_map (delete b (map_ c3)) (after_scrub t3 c3)))))
    as Hset4.
  { rewrite set_eq, make_room_miss.
    - rewrite (evict_frontmost _ stale (t1 + ttl0) b vb [(t2 + ttl0, a)]).
      + by rewrite Hm4.
      + by rewrite Hl4.
      + unfold current. by rewrite Hm4.
      + by rewrite Hm4.
      + rewrite Hm4, Hcaps3. lia.
    - apply isFull_true. rewrite Hm4, Hcaps3. lia.
    - rewrite Hm4. by apply Hout3. }
  eexists. split; [by apply constructor_Ok|]. split.
  { change (sets ?l) with (sets [(a, va, t0); (b, vb, t1)] ++
                           sets [(a, va', t2); (d, vd, t3)]).
    rewrite perform_all_app, Hrun2. simpl.
    rewrite (bind_Ok _ _ _ _ _ Hset3), (bind_Ok _ _ _ _ _ Hset4). done. }
  split; [|simpl; congruence].
  split; simpl; rewrite ?Hts3, ?Httl3.
  - done.
  - rewrite map_size_insert_None.
    + rewrite map_size_delete_Some by by rewrite Hb3. lia.
    + rewrite lookup_delete_ne by done. by apply Hout3.
  - intros k v t [[= -> -> ->]|[= -> -> ->]%list_elem_of_singleton]%elem_of_cons.
    + rewrite lookup_insert_ne, lookup_delete_ne by done. done.
    + apply lookup_insert_eq.
  - intros k Hk. rewrite lookup_insert_ne.
    + destruct (decide (k = b)) as [->|]; [apply lookup_delete_eq|].
      rewrite lookup_delete_ne by done. apply Hout3; [|done].
      intros ->. apply Hk. by left.
    + intros ->. apply Hk. right. by left.
Qed.

(** * The claims of the specification *)

(** C1 (capacity invariant).  For a cache constructed with [ttl > 0] and
    [capacity > 0] and every finite sequence of calls (of [set] and [get],
    and of the other public methods too, with any keys, values and times),
    a further call of [set] returns, and the map then holds at most
    [capacity] entries. *)
Theorem capacity_invariant ttl0 capacity0 interval0 calls key value time :
  ttl0 > 0 → capacity0 > 0 →
  ∃ c0 c,
    constructor T ttl0 capacity0 interval0 = Ok c0 ∧
    perform_all (calls ++ [Set_ key value time]) c0 = Ok (tt, c) ∧
    Z.of_nat (size (map_ c)) ≤ capacity0.
Proof.
  intros Httl Hcap.
  set (c0 := mkCache ttl0 capacity0 (default 10000 interval0) None ∅ [] : Cache T).
  assert (constructor T ttl0 capacity0 interval0 = Ok c0) as Hnew
    by by apply constructor_Ok.
  destruct (perform_all_Ok (calls ++ [Set_ key value time]) c0
              (invariant_constructor _ _ _ _ Hnew)) as (c & Hrun & Hinv & _ & Hc).
  exists c0, c. split_and!; [done..|].
  replace capacity0 with (capacity c) by done. apply Hinv.
Qed.

(** C2, amended (the guard against stale entries).  Scanning an array
    entry [(expiration, key)], in [scrub] or in [evict], deletes the map's
    entry for [key] only when that entry has exactly this expiration, and
    touches no other key; scanning a stale entry, whose expiration differs
    from that of the map's entry for its key, changes nothing.  So a whole
    pass of [scrub] or of [evict] removes an entry [key ↦ (e, v)] of the map
    exactly when [(e, key)] is among the array entries it consumes.  After a
    key has been set again at another instant, scanning the array entry of
    the earlier [set] leaves its new entry in the map.  After it has been
    set again at the same instant, the array entry of the earlier [set]
    carries the expiration of the new entry: it is not stale, and scanning
    it deletes the new entry. *)
Theorem stale_entry_guard :
  (∀ c e k, delete_if_current e k c ≠ c →
            ∃ v, map_ c !! k = Some (e, v) ∧
                 delete_if_current e k c = set_map (delete k (map_ c)) c) ∧
  (∀ c e k e' v, map_ c !! k = Some (e', v) → e' ≠ e →
                 delete_if_current e k c = c) ∧
  (∀ c e k k', k' ≠ k → map_ (delete_if_current e k c) !! k' = map_ c !! k') ∧
  (∀ c now c',
     scrub now c = Ok (tt, c') →
     ∃ n, list_ c' = drop n (list_ c) ∧
          ∀ k, map_ c' !! k =
               match map_ c !! k with
               | Some (e, v) =>
                   if decide ((e, k) ∈ take n (list_ c)) then None
                   else Some (e, v)
               | None => None
               end) ∧
  (∀ c c',
     evict c = Ok (tt, c') →
     ∃ n, list_ c' = drop n (list_ c) ∧
          ∀ k, map_ c' !! k =
               match map_ c !! k with
               | Some (e, v) =>
                   if decide ((e, k) ∈ take n (list_ c)) then None
                   else Some (e, v)
               | None => None
               end) ∧
  (∀ c k v0 v1 t0 t1,
     reachable c → t0 ≠ t1 →
     ∃ c1 c2,
       set k v0 t0 c = Ok (tt, c1) ∧ set k v1 t1 c1 = Ok (tt, c2) ∧
       map_ c2 !! k = Some (t1 + ttl c, v1) ∧
       delete_if_current (t0 + ttl c) k c2 = c2) ∧
  (∀ c k v0 v1 t,
     reachable c →
     ∃ c1 c2,
       set k v0 t c = Ok (tt, c1) ∧ set k v1 t c1 = Ok (tt, c2) ∧
       map_ c2 !! k = Some (t + ttl c, v1) ∧
       delete_if_current (t + ttl c) k c2 = set_map (delete k (map_ c2)) c2 ∧
       map_ (delete_if_current (t + ttl c) k c2) !! k = None).
Proof.
  split_and!.
  - intros c e k Hchanged.
    destruct (delete_if_current_cases e k c) as [[_ Hsame]|[[v Hv] Hdel]];
      [done | eauto].
  - intros c e k e' v Hk Hne. apply delete_if_current_stale.
    intros [v' Hv']. simpl in Hv'. congruence.
  - intros c e k k' Hne.
    destruct (delete_if_current_cases e k c) as [[_ ->]|[_ ->]]; [done|].
    simpl. by apply lookup_delete_ne.
  - intros c now c' (n & _ & Hm & Hl)%scrub_consumed.
    exists n. split; [done|]. intros k. rewrite Hm. apply lookup_consumed.
  - intros c c' (n & _ & -> & _)%evict_spec.
    exists n. split; [done|]. intros k. apply lookup_consumed.
  - intros c k v0 v1 t0 t1 Hc%reachable_invariant Hlt.
    destruct (set_Ok k v0 t0 c Hc) as (c1' & _ & Hset1 & Hinv1 & Httl1 & _).
    destruct (set_Ok k v1 t1 _ Hinv1) as (c2' & _ & Hset2 & _ & Httl2 & _).
    simpl in Httl2.
    assert (map_ (stored k v1 t1 c2') !! k = Some (t1 + ttl c, v1)) as Hk.
    { simpl. rewrite lookup_insert_eq. do 3 f_equal. congruence. }
    eexists _, _. split_and!; [done.. |].
    apply delete_if_current_stale. intros [v' Hv']. cbn [fst snd] in Hv'.
    rewrite Hk in Hv'. injection Hv' as Hv' _. lia.
  - intros c k v0 v1 t Hc%reachable_invariant.
    destruct (set_Ok k v0 t c Hc) as (c1' & _ & Hset1 & Hinv1 & Httl1 & _).
    destruct (set_Ok k v1 t _ Hinv1) as (c2' & _ & Hset2 & _ & Httl2 & _).
    simpl in Httl2.
    assert (map_ (stored k v1 t c2') !! k = Some (t + ttl c, v1)) as Hk.
    { simpl. rewrite lookup_insert_eq. do 3 f_equal. congruence. }
    assert (delete_if_current (t + ttl c) k (stored k v1 t c2')
            = set_map (delete k (map_ (stored k v1 t c2')))
                (stored k v1 t c2')) as Hdel.
    { unfold delete_if_current. rewrite Hk. cbn [fst].
      by rewrite bool_decide_true. }
    eexists _, _. split_and!; [done..|].
    rewrite Hdel. simpl. apply lookup_delete_eq.
Qed.

(** C3, amended (eviction order).  On an empty cache of capacity [n], setting
    [n + 1] distinct keys [k1 .. k(n+1)] in order, each before the earlier
    ones expire, evicts exactly [k1]: [get(k1)] is then absent and [get(ki)]
    returns its value for the others.  In general [evict], on a full map
    of a cache in use, removes exactly the entry of the frontmost array
    entry that is current (the map holds its key with its expiration), and
    drops the stale entries before it without touching the map.  After
    [set(k, v, t)] the array ends with the entry of this call, and every
    entry of [k] with another expiration is stale: a key set again at
    another time is evicted at the place of its latest [set], as the
    sequence [a, b, a, d] on a cache of capacity 2 shows, which evicts [b]
    when the second [set] of [a] is not at the time of the first. *)
Theorem eviction_order :
  (∀ ttl0 n interval0 x1 rest now,
     ttl0 > 0 → (0 < n)%nat → length rest = n →
     NoDup (entry_key <$> x1 :: rest) → none_expired ttl0 (x1 :: rest) →
     Forall (λ x, x.2 + ttl0 > now) rest →
     ∃ c0 c,
       constructor T ttl0 (Z.of_nat n) interval0 = Ok c0 ∧
       perform_all (sets (x1 :: rest)) c0 = Ok (tt, c) ∧
       (∃ c', get (entry_key x1) now c = Ok (None, c')) ∧
       (∀ k v t, (k, v, t) ∈ rest → ∃ c', get k now c = Ok (Some v, c'))) ∧
  (∀ c,
     reachable c → isFull c = true →
     ∃ stale e k v rest,
       list_ c = stale ++ (e, k) :: rest ∧
       Forall (λ item, ¬ current c item) stale ∧
       map_ c !! k = Some (e, v) ∧
       evict c = Ok (tt, set_list rest (set_map (delete k (map_ c)) c))) ∧
  (∀ c k v t,
     reachable c →
     ∃ c' front,
       set k v t c = Ok (tt, c') ∧
       list_ c' = front ++ [(t + ttl c, k)] ∧
       map_ c' !! k = Some (t + ttl c, v) ∧
       ∀ e, e ≠ t + ttl c → ¬ current c' (e, k)) ∧
  (∀ ttl0 interval0 a b d va vb va' vd t0 t1 t2 t3 now,
     ttl0 > 0 → a ≠ b → a ≠ d → b ≠ d → t2 ≠ t0 →
     t0 + ttl0 > t1 → t0 + ttl0 > t2 → t0 + ttl0 > t3 →
     t1 + ttl0 > t2 → t1 + ttl0 > t3 → t2 + ttl0 > t3 →
     t2 + ttl0 > now → t3 + ttl0 > now →
     ∃ c0 c,
       constructor T ttl0 2 interval0 = Ok c0 ∧
       perform_all
         (sets [(a, va, t0); (b, vb, t1); (a, va', t2); (d, vd, t3)]) c0
         = Ok (tt, c) ∧
       (∃ c', get a now c = Ok (Some va', c')) ∧
       (∃ c', get b now c = Ok (None, c')) ∧
       (∃ c', get d now c = Ok (Some vd, c'))).
Proof.
  split_and!.
  - intros ttl0 n interval0 x1 rest now Httl Hn Hlen Hdup Hfresh Hnow.
    destruct (first_in_first_out ttl0 n interval0 x1 rest)
      as (c0 & c & Hnew & Hrun & Hc & Ht); [done..|].
    exists c0, c. split_and!; [done..| |].
    + eexists. eapply holds_get_out; [done|]. simpl in Hdup.
      by apply NoDup_cons in Hdup as [? _].
    + intros k v t Hin. eexists. eapply holds_get_in; [done..|].
      rewrite Ht. by apply (proj1 (Forall_forall _ _) Hnow (k, v, t)).
  - intros c [Httl Hcap Hsize Hcov]%reachable_invariant Hfull%isFull_true.
    assert (map_ c ≠ ∅) as Hne.
    { intros Hempty. rewrite Hempty, map_size_empty in Hfull. lia. }
    apply map_choose in Hne as (k0 & [e0 v0] & Hk0).
    destruct (Hcov _ _ _ Hk0) as (i & _ & Hi).
    destruct (frontmost_current c (list_ c)) as (stale & [e k] & rest & Hl & Hstale & [v Hv]).
    { exists (e0, k0). split; [by eapply list_elem_of_lookup_2 | by exists v0]. }
    exists stale, e, k, v, rest. split_and!; [done..|].
    apply (evict_frontmost c stale e k v rest); [done..|lia].
  - intros c k v t Hc%reachable_invariant.
    destruct (set_Ok k v t c Hc) as (c1 & _ & Hset & _ & Httl & _).
    exists (stored k v t c1), (list_ c1). simpl. rewrite Httl.
    split_and!; [done | done | apply lookup_insert_eq |].
    intros e He [v' Hv']. simpl in Hv'. rewrite lookup_insert_eq in Hv'.
    injection Hv' as Hv' _. congruence.
  - intros ttl0 interval0 a b d va vb va' vd t0 t1 t2 t3 now
      Httl Hab Had Hbd Ht H01 H02 H03 H12 H13 H23 H2 H3.
    destruct (reset_at_other_time ttl0 interval0 a b d va vb va' vd t0 t1 t2 t3)
      as (c0 & c & Hnew & Hrun & Hc & Htc); [done..|].
    exists c0, c. split_and!; [done..| | |]; eexists.
    + eapply holds_get_in; [done | by left | lia].
    + eapply holds_get_out; [done|]. simpl.
      intros [->|[->|?%elem_of_nil]%elem_of_cons]%elem_of_cons; done.
    + eapply holds_get_in; [done | right; by left | lia].
Qed.

(** C4 (round trip).  On a cache in use, for every key [k], value [v] and
    times [t0 ≤ t1] with [t1 - t0 < ttl], [set(k, v, t0)] followed at once
    by [get(k, t1)] returns [v]. *)
Theorem set_get_round_trip c k v t0 t1 :
  reachable c → t0 ≤ t1 → t1 - t0 < ttl c →
  ∃ c1 c2, set k v t0 c = Ok (tt, c1) ∧ get k t1 c1 = Ok (Some v, c2).
Proof.
  intros Hc%reachable_invariant _ Hwithin.
  destruct (set_Ok k v t0 c Hc) as (c' & _ & Hset & _ & Httl & _).
  exists (stored k v t0 c'), (after_scrub t1 (stored k v t0 c')).
  split; [done|]. rewrite get_eq. f_equal.
  apply after_get_live with (e := t0 + ttl c').
  - simpl. apply lookup_insert_eq.
  - lia.
Qed.

(** C5 (expiry).  On a cache in use, after [set(k, v, t0)] a
    [get(k, t0 + ttl + eps)] with [eps > 0] returns absent and leaves no entry
    for [k] in the map: the call of [get] removes it itself.  When the
    sweep of [scrub] is skipped at that instant, the array still holds the
    entry of [k] and only the map changes. *)
Theorem get_after_expiry c k v t0 eps :
  reachable c → eps > 0 →
  ∃ c1 c2,
    set k v t0 c = Ok (tt, c1) ∧
    get k (t0 + ttl c + eps) c1 = Ok (None, c2) ∧
    map_ c2 !! k = None ∧
    (rate_limited (t0 + ttl c + eps) c1 →
     map_ c1 !! k = Some (t0 + ttl c, v) ∧
     c2 = set_map (delete k (map_ c1)) c1 ∧
     (t0 + ttl c, k) ∈ list_ c2).
Proof.
  intros Hc%reachable_invariant Heps.
  destruct (set_Ok k v t0 c Hc) as (c' & _ & Hset & _ & Httl & _).
  set (c1 := stored k v t0 c') in *.
  assert (map_ c1 !! k = Some (t0 + ttl c, v)) as Hk
    by (rewrite <- Httl; apply lookup_insert_eq).
  destruct (after_get_expired k (t0 + ttl c + eps) c1 _ _ Hk) as (Hr & Hgone & Hlim);
    [lia|].
  exists c1, (after_get k (t0 + ttl c + eps) c1).2.
  split; [done|]. rewrite get_eq. split; [|split; [done|]].
  - f_equal. destruct (after_get k (t0 + ttl c + eps) c1). simpl in Hr. by subst.
  - intros Hskip. split; [done|]. split; [by apply Hlim|].
    rewrite (Hlim Hskip). simpl. rewrite <- Httl.
    apply elem_of_app. right. by left.
Qed.

(** C6, amended (overwriting a live key does not evict).  On any object,
    full or not, [set(k, v', t)] for a key [k] that is live at [t] with a
    value that is not nil returns without calling [evict]: the object is
    the one [scrub] leaves, with [k] overwritten and one entry pushed on
    the array.  An entry of another key is unchanged, or it had expired at
    [t] and the sweep of that [scrub] removed it.  When the sweep is skipped
    at [t], or when no entry of the map has expired at [t], every other
    key's entry is unchanged and the map keeps its size. *)
Theorem overwrite_live_key_no_evict c k v' t e v :
  map_ c !! k = Some (e, v) → e > t → nil_value v = false →
  ∃ c1 c',
    scrub t c = Ok (tt, c1) ∧
    set k v' t c = Ok (tt, c') ∧
    map_ c' = <[k := (t + ttl c, v')]> (map_ c1) ∧
    list_ c' = list_ c1 ++ [(t + ttl c, k)] ∧
    (∀ k', k' ≠ k →
       map_ c' !! k' = map_ c !! k' ∨
       ∃ e' v'', map_ c !! k' = Some (e', v'') ∧ e' ≤ t ∧ map_ c' !! k' = None) ∧
    (rate_limited t c ∨ (∀ k' e' v'', map_ c !! k' = Some (e', v'') → e' > t) →
     (∀ k', k' ≠ k → map_ c' !! k' = map_ c !! k') ∧
     size (map_ c') = size (map_ c)).
Proof.
  intros Hk Hlive Hnil.
  destruct (after_scrub_frame t c) as (Httl & _ & _).
  exists (after_scrub t c), (stored k v' t (after_scrub t c)).
  split; [apply scrub_eq|].
  split; [by rewrite set_eq, (make_room_live k t c e v)|].
  simpl. rewrite Httl. split; [done|]. split; [done|]. split.
  - intros k' Hne. rewrite lookup_insert_ne by done.
    destruct (map_ (after_scrub t c) !! k') as [[e' v'']|] eqn:E.
    + left. by apply after_scrub_Some in E.
    + destruct (map_ c !! k') as [[e' v'']|] eqn:E'; [|by left].
      right. exists e', v''. split; [done|]. split; [|done].
      by eapply after_scrub_None.
  - intros Hsame.
    assert (map_ (after_scrub t c) = map_ c) as ->.
    { destruct Hsame as [Hskip|Hnone].
      - unfold after_scrub. by rewrite decide_True.
      - by apply after_scrub_none_expired. }
    split; [intros k' Hne; by rewrite lookup_insert_ne|].
    by rewrite map_size_insert_Some.
Qed.

(** C7 (the sweep is rate limited).  A [scrub] that runs at time [t] records
    [last = t], and a [scrub] at a time [t'] with [t' - t < interval] then
    changes nothing of the object: map, array and [last].  A [set] or [get]
    at [t] whose sweep runs leaves [last = t], so that the [scrub] of a call
    less than [interval] later does not sweep; and with a positive
    [interval] the second [scrub] of a call, which [set] makes through
    [get] at the same instant, is skipped: two calls within [interval] of
    each other sweep at most once.  Still, a [get] at such a [t'] for a key
    whose entry has expired by [t'] (between [t] and [t'] in particular)
    returns absent: [get] itself deletes the entry from the map, and the
    array and [last] stay as they were. *)
Theorem scrub_rate_limited :
  (∀ c now c', ¬ rate_limited now c → scrub now c = Ok (tt, c') →
               last_ c' = Some now) ∧
  (∀ c t t', last_ c = Some t → t' - t < interval c →
             scrub t' c = Ok (tt, c)) ∧
  (∀ c now c', 0 < interval c → scrub now c = Ok (tt, c') →
               rate_limited now c') ∧
  (∀ c k v t c' t',
     ¬ rate_limited t c → set k v t c = Ok (tt, c') → t' - t < interval c →
     last_ c' = Some t ∧ scrub t' c' = Ok (tt, c')) ∧
  (∀ c k t r c' t',
     ¬ rate_limited t c → get k t c = Ok (r, c') → t' - t < interval c →
     last_ c' = Some t ∧ scrub t' c' = Ok (tt, c')) ∧
  (∀ c t t' k e v,
     last_ c = Some t → t' - t < interval c →
     map_ c !! k = Some (e, v) → e ≤ t' →
     get k t' c = Ok (None, set_map (delete k (map_ c)) c)).
Proof.
  assert (∀ c t t', last_ c = Some t → t' - t < interval c →
                    rate_limited t' c) as Hlim.
  { intros c t t' Hlast Hlt. unfold rate_limited. by rewrite Hlast. }
  split_and!.
  - intros c now c' Hdue. rewrite scrub_due by done. by intros [= <-].
  - intros c t t' Hlast Hlt. apply scrub_limited. eauto.
  - intros c now c' Hpos. rewrite scrub_eq. intros [= <-].
    unfold after_scrub. case_decide as Hlimited; [done|].
    unfold rate_limited. simpl. lia.
  - intros c k v t c' t' Hdue Hset Hlt.
    apply set_last_interval in Hset as [Hi Hlast].
    rewrite (last_scrubbed _ _ Hdue) in Hlast.
    assert (last_ c' = Some t) as Hl by by destruct Hlast.
    split; [done|]. apply scrub_limited, (Hlim _ t); [done | by rewrite Hi].
  - intros c k t r c' t' Hdue Hget Hlt. rewrite get_eq in Hget.
    destruct (after_get_frame k t c) as (_ & _ & Hi).
    pose proof (last_after_get k t c) as Hlast.
    rewrite (last_scrubbed _ _ Hdue) in Hlast.
    injection Hget as Hget. rewrite Hget in Hi, Hlast. simpl in *.
    split; [done|]. apply scrub_limited, (Hlim _ t); [done | by rewrite Hi].
  - intros c t t' k e v Hlast Hlt Hk He. rewrite get_eq. f_equal.
    destruct (after_get_expired k t' c e v Hk He) as (Hr & _ & Hc).
    specialize (Hc (Hlim _ _ _ Hlast Hlt)).
    destruct (after_get k t' c). simpl in *. by subst.
Qed.

(** C8 (the map stays within the array).  The constructor establishes, and
    [set], [get], [scrub] and [evict] preserve, that every entry
    [key ↦ (expiration, value)] of the map has an entry [(expiration, key)]
    in the array; inside the loop of [evict] that entry lies at an index at
    or beyond the one the loop has reached.  Hence, with [capacity > 0],
    the loop of [evict] never reads outside the array: its assertion holds,
    it ends at an index within the array, and it leaves the map below
    capacity. *)
Theorem map_within_array :
  (∀ ttl0 capacity0 interval0 c,
     constructor T ttl0 capacity0 interval0 = Ok c → covers c) ∧
  (∀ c k v t c', covers c → set k v t c = Ok (tt, c') → covers c') ∧
  (∀ c k t r c', covers c → get k t c = Ok (r, c') → covers c') ∧
  (∀ c t c', covers c → scrub t c = Ok (tt, c') → covers c') ∧
  (∀ c c', covers c → evict c = Ok (tt, c') → covers c') ∧
  (∀ c index,
     capacity c > 0 → covers_from index c →
     ∃ index' c',
       evict_loop index c = Ok (index', c') ∧
       (index ≤ index' ≤ index `max` length (list_ c))%nat ∧
       covers_from index' c' ∧
       Z.of_nat (size (map_ c')) < capacity c') ∧
  (∀ c,
     capacity c > 0 → covers c →
     ∃ n c',
       evict c = Ok (tt, c') ∧ (n ≤ length (list_ c))%nat ∧
       list_ c' = drop n (list_ c) ∧ covers c' ∧
       Z.of_nat (size (map_ c')) < capacity c').
Proof.
  split_and!.
  - intros ttl0 capacity0 interval0 c Hnew.
    by apply invariant_constructor in Hnew as [].
  - intros c k v t c'. apply covers_set.
  - intros c k t r c' Hcov. rewrite get_eq. intros [= Hget].
    replace c' with (after_get k t c).2 by by rewrite Hget.
    by apply after_get_covers.
  - intros c t c' Hcov. rewrite scrub_eq. intros [= <-].
    by apply after_scrub_covers.
  - intros c c'. apply covers_evict.
  - intros c index Hcap Hcov.
    destruct (evict_loop_total index c Hcap Hcov)
      as (index' & c' & Hloop & Hcov').
    exists index', c'. split; [done|].
    apply evict_loop_spec in Hloop as (Hle & Hmax & _ & Hnot).
    split; [lia|]. split; [done|]. by apply isFull_false.
  - intros c Hcap Hcov.
    destruct (evict_total c Hcap Hcov) as [c' Hevict].
    pose proof (covers_evict _ _ Hcov Hevict) as Hcov'.
    apply evict_spec in Hevict as Hspec. destruct Hspec as (n & Hn & Hc' & Hnot).
    exists n, c'. split_and!; [done | done | by rewrite Hc' | done |].
    by apply isFull_false.
Qed.

(** C9 (errors only at construction).  The constructor throws when
    [ttl ≤ 0] or [capacity ≤ 0]; otherwise it returns an object with an
    empty map and an empty array, whose [interval] is 10000 when the option
    is omitted.  No method throws afterwards: on every object in use [set]
    and [evict] return, [scrub] and [get] return on any object at all
    ([isFull] is a plain reading), and [get] answers a miss by the absent
    result. *)
Theorem errors_only_at_construction :
  (∀ ttl0 capacity0 interval0,
     ttl0 ≤ 0 ∨ capacity0 ≤ 0 →
     constructor T ttl0 capacity0 interval0 = AssertionError) ∧
  (∀ ttl0 capacity0 interval0,
     ttl0 > 0 → capacity0 > 0 →
     constructor T ttl0 capacity0 interval0 =
       Ok (mkCache ttl0 capacity0 (default 10000 interval0) None ∅ [] : Cache T)) ∧
  (∀ ttl0 capacity0 c,
     constructor T ttl0 capacity0 None = Ok c → interval c = 10000) ∧
  (∀ c k v t, reachable c → ∃ c', set k v t c = Ok (tt, c')) ∧
  (∀ c, reachable c → ∃ c', evict c = Ok (tt, c')) ∧
  (∀ c t, ∃ c', scrub t c = Ok (tt, c')) ∧
  (∀ c k t, ∃ r c', get k t c = Ok (r, c')) ∧
  (∀ c k t, map_ c !! k = None → ∃ c', get k t c = Ok (None, c')).
Proof.
  split_and!.
  - intros ttl0 capacity0 interval0 Hbad. unfold constructor.
    destruct (bool_decide_reflect (ttl0 > 0)); [|done].
    destruct (bool_decide_reflect (capacity0 > 0)); [lia | done].
  - intros ttl0 capacity0 interval0 Httl Hcap. by apply constructor_Ok.
  - by intros ttl0 capacity0 c (_ & _ & ->)%constructor_Ok.
  - intros c k v t Hc%reachable_invariant.
    destruct (set_Ok k v t c Hc) as (c1 & _ & -> & _). eauto.
  - intros c Hc%reachable_invariant.
    destruct (invariant_evict c Hc) as (c' & -> & _). eauto.
  - intros c t. rewrite scrub_eq. eauto.
  - intros c k t. rewrite get_eq. destruct (after_get k t c). eauto.
  - intros c k t Hk. rewrite get_eq. unfold after_get.
    destruct (map_ (after_scrub t c) !! k) as [[e v]|] eqn:E; [|eauto].
    apply after_scrub_Some in E. congruence.
Qed.

(** C10 (the boundary is exclusive).  An entry whose expiration equals the
    current time has expired: after [set(k, v, t0)] a [get(k, t0 + ttl)]
    returns absent and leaves no entry for [k] in the map; a [scrub] that
    sweeps removes from the front of the array exactly the leading entries
    with [expiration ≤ now], and from the map the entries they are current
    for; and [get] returns a value only from an entry with
    [expiration > now]. *)
Theorem expiration_boundary_exclusive :
  (∀ c k v t0,
     reachable c →
     ∃ c1 c2, set k v t0 c = Ok (tt, c1) ∧
              get k (t0 + ttl c) c1 = Ok (None, c2) ∧ map_ c2 !! k = None) ∧
  (∀ c now,
     ¬ rate_limited now c →
     ∃ n c',
       scrub now c = Ok (tt, c') ∧
       list_ c' = drop n (list_ c) ∧
       (∀ e k, (e, k) ∈ take n (list_ c) → e ≤ now) ∧
       (∀ e k, list_ c !! n = Some (e, k) → e > now) ∧
       (∀ e k v, (e, k) ∈ take n (list_ c) → map_ c !! k = Some (e, v) →
                 map_ c' !! k = None)) ∧
  (∀ c k now v c',
     get k now c = Ok (Some v, c') →
     ∃ e, map_ c !! k = Some (e, v) ∧ e > now).
Proof.
  split_and!.
  - intros c k v t0 Hc%reachable_invariant.
    destruct (set_Ok k v t0 c Hc) as (c' & _ & Hset & _ & Httl & _).
    set (c1 := stored k v t0 c') in *.
    assert (map_ c1 !! k = Some (t0 + ttl c, v)) as Hk
      by (rewrite <- Httl; apply lookup_insert_eq).
    destruct (after_get_expired k (t0 + ttl c) c1 _ _ Hk) as (Hr & Hgone & _);
      [lia|].
    exists c1, (after_get k (t0 + ttl c) c1).2.
    split; [done|]. rewrite get_eq. split; [|done].
    f_equal. destruct (after_get k (t0 + ttl c) c1). simpl in Hr. by subst.
  - intros c now Hdue.
    exists (expired_prefix now (list_ c)), (scrubbed now c).
    split_and!; [by apply scrub_due | done | | |].
    + apply expired_prefix_expired.
    + apply expired_prefix_next.
    + intros e k v Hin Hk. simpl. apply lookup_purge_None. right. eauto.
  - intros c k now v c'. rewrite get_eq. intros [= Hget].
    apply after_get_Some. by rewrite Hget.
Qed.

End Properties.

(** * The tests of the repository, and the claims at concrete inputs *)

Lemma fresh_reachable : reachable fresh.
Proof. by apply (reachable_new 60000 3 None). Qed.

Lemma small_reachable : reachable small.
Proof. by apply (reachable_new 10 2 None). Qed.

Lemma swept_reachable : reachable swept.
Proof.
  apply (perform_all_reachable [Set_ "a" 1 100] (mkCache 10 2 100 None ∅ [])).
  - by apply (reachable_new 10 2 (Some 100)).
  - vm_compute. reflexivity.
Qed.

Lemma full_reachable : reachable full.
Proof.
  apply (perform_all_reachable [Set_ "a" 1 10000; Set_ "b" 2 10001] small).
  - exact small_reachable.
  - vm_compute. reflexivity.
Qed.

(** 'should set key/value cache' *)
Example test_set_key_value :
  ∃ c, perform_all [Set_ "a" 1 0; Set_ "b" 2 0]
         (mkCache 60000 1000 10000 None ∅ []) = Ok (tt, c) ∧
       (after_get "a" 0 c).1 = Some 1 ∧
       (after_get "b" 0 c).1 = Some 2 ∧
       (after_get "c" 0 c).1 = None.
Proof. eexists. split; [vm_compute; reflexivity|]. by vm_compute. Qed.

(** 'should get undefined when expiration' *)
Example test_expiration :
  ∃ c, perform_all [Set_ "a" 1 0; Set_ "b" 2 0]
         (mkCache 1 1000 10000 None ∅ []) = Ok (tt, c) ∧
       (after_get "a" 10 c).1 = None ∧
       (after_get "b" 10 c).1 = None ∧
       (after_get "c" 10 c).1 = None.
Proof. eexists. split; [vm_compute; reflexivity|]. by vm_compute. Qed.

(** 'should delete the oldest if the cache is full' *)
Example test_delete_the_oldest :
  ∃ c, perform_all [Set_ "a" 1 0; Set_ "b" 2 0; Set_ "c" 3 0; Set_ "d" 4 0;
                    Set_ "a" 5 0] fresh = Ok (tt, c) ∧
       (after_get "a" 0 c).1 = Some 5 ∧
       (after_get "b" 0 c).1 = None ∧
       (after_get "c" 0 c).1 = Some 3 ∧
       (after_get "d" 0 c).1 = Some 4 ∧
       (after_get "e" 0 c).1 = None.
Proof. eexists. split; [vm_compute; reflexivity|]. by vm_compute. Qed.

(** Why the amended C6 asks for a value that is not nil: [get] returns the
    value [undefined] of the live key ["a"], [set] takes it for a miss and
    calls [evict], and ["b"] goes. *)
Example overwrite_of_nil_value_evicts :
  ∃ c c',
    perform_all [Set_ "b" (Some 2) 0; Set_ "a" None 0]
      (mkCache 10 2 10000 None ∅ []) = Ok (tt, c) ∧
    map_ c !! "a" = Some (10, None) ∧ map_ c !! "b" = Some (10, Some 2) ∧
    set "a" (Some 1) 1 c = Ok (tt, c') ∧
    map_ c' !! "b" = None.
Proof.
  eexists _, _. split; [vm_compute; reflexivity|].
  split; [by vm_compute|]. split; [by vm_compute|].
  split; [vm_compute; reflexivity|]. by vm_compute.
Qed.

Lemma capacity_invariant_witness :
  ∃ c0 c : Cache Z,
    constructor Z 60000 3 None = Ok c0 ∧
    perform_all ([Set_ "a" 1 0; Set_ "b" 2 0; Set_ "c" 3 0; Get "a" 1]
                 ++ [Set_ "d" 4 2]) c0 = Ok (tt, c) ∧
    Z.of_nat (size (map_ c)) ≤ 3.
Proof. apply capacity_invariant; lia. Defined.

Lemma set_get_round_trip_witness :
  ∃ c1 c2, set "a" 1 0 fresh = Ok (tt, c1) ∧ get "a" 59999 c1 = Ok (Some 1, c2).
Proof.
  apply (set_get_round_trip fresh "a" 1 0 59999);
    [exact fresh_reachable | lia | reflexivity].
Defined.

Lemma get_after_expiry_witness :
  ∃ c1 c2,
    set "a" 1 0 fresh = Ok (tt, c1) ∧
    get "a" 60001 c1 = Ok (None, c2) ∧ map_ c2 !! "a" = None.
Proof.
  destruct (get_after_expiry fresh "a" 1 0 1 fresh_reachable)
    as (c1 & c2 & Hset & Hget & Hgone & _); [lia|].
  by exists c1, c2.
Defined.

Lemma expiration_boundary_exclusive_witness :
  ∃ c1 c2,
    set "a" 1 0 fresh = Ok (tt, c1) ∧
    get "a" 60000 c1 = Ok (None, c2) ∧ map_ c2 !! "a" = None.
Proof.
  exact (proj1 expiration_boundary_exclusive fresh "a" 1 0 fresh_reachable).
Defined.

Lemma scrub_rate_limited_witness :
  get "a" 150 swept = Ok (None, set_map (delete "a" (map_ swept)) swept).
Proof.
  apply (proj2 (proj2 (proj2 (proj2 (proj2 scrub_rate_limited))))
           swept 100 150 "a" 110 1);
    [reflexivity | reflexivity | reflexivity | lia].
Defined.

Lemma errors_only_at_construction_witness :
  ∃ c', set "a" 1 0 fresh = Ok (tt, c').
Proof.
  exact (proj1 (proj2 (proj2 (proj2 errors_only_at_construction)))
           fresh "a" 1 0 fresh_reachable).
Defined.

Lemma map_within_array_witness :
  ∃ n c',
    evict full = Ok (tt, c') ∧ (n ≤ length (list_ full))%nat ∧
    list_ c' = drop n (list_ full) ∧ covers c' ∧
    Z.of_nat (size (map_ c')) < capacity c'.
Proof.
  apply (proj2 (proj2 (proj2 (proj2 (proj2 (proj2 map_within_array))))) full).
  - reflexivity.
  - apply (reachable_invariant full full_reachable).
Defined.

Lemma stale_entry_guard_witness :
  ∃ c1 c2,
    set "a" 1 0 fresh = Ok (tt, c1) ∧ set "a" 2 5 c1 = Ok (tt, c2) ∧
    map_ c2 !! "a" = Some (60005, 2) ∧
    delete_if_current 60000 "a" c2 = c2.
Proof.
  apply (proj1 (proj2 (proj2 (proj2 (proj2 (proj2 stale_entry_guard)))))
           fresh "a" 1 2 0 5).
  - exact fresh_reachable.
  - lia.
Defined.

(** C2, as stated, fails.  On a cache of capacity 2 the key ["a"] is set,
    then ["b"], then ["a"] again with a new value, all at time 0: the array
    holds two equal entries of ["a"], and the map holds the new value, which
    is live.  The map is full; [evict] scans the first array entry, the one
    of the earlier [set] of ["a"], finds the expiration of the map's entry
    equal to it, and deletes the new value. *)
Lemma reset_at_same_time_loses_fresh_value :
  ∃ c c',
    perform_all [Set_ "a" 1 0; Set_ "b" 2 0; Set_ "a" 3 0] small = Ok (tt, c) ∧
    list_ c = [(10, "a"); (10, "b"); (10, "a")] ∧
    map_ c !! "a" = Some (10, 3) ∧
    get "a" 0 c = Ok (Some 3, c) ∧
    map_ (delete_if_current 10 "a" c) !! "a" = None ∧
    evict c = Ok (tt, c') ∧
    list_ c' = [(10, "b"); (10, "a")] ∧
    map_ c' !! "a" = None ∧
    map_ c' !! "b" = Some (10, 2).
Proof.
  eexists _, _. split; [vm_compute; reflexivity|].
  split; [vm_compute; reflexivity|]. split; [vm_compute; reflexivity|].
  split; [vm_compute; reflexivity|]. split; [vm_compute; reflexivity|].
  split; [vm_compute; reflexivity|]. split; [vm_compute; reflexivity|].
  split; vm_compute; reflexivity.
Qed.

(** C6, as stated, fails.  A cache of capacity 2 and [ttl] 10 holds ["a"],
    set at time 0, and ["b"], set at time 9995: the map is full.  At time
    10000 the key ["b"] is live, and [set("b", 3)] runs the sweep of
    [scrub], which is due: it removes the expired ["a"], and the map has
    one entry after the call. *)
Lemma overwrite_at_capacity_sweeps :
  ∃ c c',
    perform_all [Set_ "a" 1 0; Set_ "b" 2 9995] small = Ok (tt, c) ∧
    Z.of_nat (size (map_ c)) = capacity c ∧
    map_ c !! "b" = Some (10005, 2) ∧
    map_ c !! "a" = Some (10, 1) ∧
    set "b" 3 10000 c = Ok (tt, c') ∧
    map_ c' !! "a" = None ∧
    size (map_ c) = 2%nat ∧ size (map_ c') = 1%nat.
Proof.
  eexists _, _. split; [vm_compute; reflexivity|].
  split; [by vm_compute|]. split; [by vm_compute|]. split; [by vm_compute|].
  split; [vm_compute; reflexivity|]. by vm_compute.
Qed.

Lemma overwrite_live_key_no_evict_witness :
  ∃ c',
    set "b" 3 10005 full = Ok (tt, c') ∧
    (∀ k', k' ≠ "b" → map_ c' !! k' = map_ full !! k') ∧
    size (map_ c') = size (map_ full).
Proof.
  destruct (overwrite_live_key_no_evict full "b" 3 10005 10011 2)
    as (c1 & c' & _ & Hset & _ & _ & _ & Hsame);
    [reflexivity | lia | reflexivity |].
  exists c'. split; [done|]. apply Hsame. left. reflexivity.
Defined.

(** C3, as stated, fails.  On a cache of capacity 2 the key ["a"] is set,
    then ["b"], then ["a"] again, all at time 0, so that both array entries
    of ["a"] are equal; then ["d"] is set.  The latest [set] of ["a"] comes
    after that of ["b"], yet [evict] stops at the first array entry of
    ["a"], which is current: ["a"] is evicted and ["b"] stays. *)
Lemma reset_at_same_time_evicted_first :
  ∃ c c1 c2,
    perform_all (sets [("a", 1, 0); ("b", 2, 0); ("a", 3, 0); ("d", 4, 0)])
      small = Ok (tt, c) ∧
    get "a" 0 c = Ok (None, c1) ∧
    get "b" 0 c = Ok (Some 2, c2).
Proof.
  eexists _, _, _. split; [vm_compute; reflexivity|].
  split; vm_compute; reflexivity.
Qed.

Lemma eviction_order_witness :
  ∃ c0 c,
    constructor Z 60000 3 None = Ok c0 ∧
    perform_all (sets [("a", 1, 0); ("b", 2, 1); ("c", 3, 2); ("d", 4, 3)]) c0
      = Ok (tt, c) ∧
    (∃ c', get "a" 4 c = Ok (None, c')) ∧
    (∀ k v t, (k, v, t) ∈ [("b", 2, 1); ("c", 3, 2); ("d", 4, 3)] →
              ∃ c', get k 4 c = Ok (Some v, c')).
Proof.
  apply (proj1 eviction_order 60000 3%nat None
           ("a", 1, 0) [("b", 2, 1); ("c", 3, 2); ("d", 4, 3)] 4).
  - lia.
  - lia.
  - reflexivity.
  - apply (bool_decide_unpack _). by vm_compute.
  - repeat constructor; simpl; lia.
  - repeat constructor; simpl; lia.
Defined.

(** * More properties of the cache *)

Section CacheUse.

Context {T : Type} `{!NilValue T}.

Implicit Types (c : Cache T) (value v : T).

(** ** [isFull], and the size at any moment *)

(** X1.  On a cache in use the map never holds more than [capacity]
    entries, after whichever call; so [isFull()] answers true exactly when
    it holds [capacity] entries. *)
Theorem isFull_exactly_at_capacity c :
  reachable c →
  Z.of_nat (size (map_ c)) ≤ capacity c ∧
  (isFull c = true ↔ Z.of_nat (size (map_ c)) = capacity c).
Proof.
  intros [_ _ Hsize _]%reachable_invariant. split; [done|].
  rewrite isFull_true. lia.
Qed.

(** ** The calls that read only remove *)

Lemma consumed_only_removes n c :
  map_ (consumed n c) ⊆ map_ c ∧ list_ (consumed n c) = drop n (list_ c).
Proof. split; [apply purge_subseteq | done]. Qed.

Lemma after_scrub_only_removes now c :
  map_ (after_scrub now c) ⊆ map_ c ∧
  ∃ n, list_ (after_scrub now c) = drop n (list_ c).
Proof.
  destruct (after_scrub_consumed now c) as (n & _ & -> & ->).
  split; [apply purge_subseteq | by exists n].
Qed.

Lemma after_get_only_removes key now c :
  map_ (after_get key now c).2 ⊆ map_ c ∧
  ∃ n, list_ (after_get key now c).2 = drop n (list_ c).
Proof.
  destruct (after_scrub_only_removes now c) as [Hsub Hlist].
  rewrite after_get_list. split; [|done].
  etrans; [|exact Hsub]. unfold after_get.
  destruct (map_ (after_scrub now c) !! key) as [[e v]|]; [|done].
  case_bool_decide; [done|]. apply delete_subseteq.
Qed.

(** X2.  [get], [scrub] and [evict] only remove: after any of them the map
    is a part of the map before, the array is the array before without some
    of its front entries, and [ttl], [capacity] and [interval] are as
    before.  No entry is added, none changes its value or its expiration. *)
Theorem reads_only_remove c :
  (∀ k now r c', get k now c = Ok (r, c') →
     map_ c' ⊆ map_ c ∧ (∃ n, list_ c' = drop n (list_ c)) ∧
     ttl c' = ttl c ∧ capacity c' = capacity c ∧ interval c' = interval c) ∧
  (∀ now c', scrub now c = Ok (tt, c') →
     map_ c' ⊆ map_ c ∧ (∃ n, list_ c' = drop n (list_ c)) ∧
     ttl c' = ttl c ∧ capacity c' = capacity c ∧ interval c' = interval c) ∧
  (∀ c', evict c = Ok (tt, c') →
     map_ c' ⊆ map_ c ∧ (∃ n, list_ c' = drop n (list_ c)) ∧
     ttl c' = ttl c ∧ capacity c' = capacity c ∧ interval c' = interval c).
Proof.
  split_and!.
  - intros k now r c'. rewrite get_eq. intros [= Hget].
    destruct (after_get_only_removes k now c) as [Hm Hl].
    destruct (after_get_frame k now c) as (? & ? & ?).
    rewrite Hget in *. by split_and!.
  - intros now c'. rewrite scrub_eq. intros [= <-].
    destruct (after_scrub_only_removes now c) as [Hm Hl].
    destruct (after_scrub_frame now c) as (? & ? & ?). by split_and!.
  - intros c' (n & _ & -> & _)%evict_spec.
    destruct (consumed_only_removes n c) as [Hm Hl].
    split_and!; [done | by exists n | done..].
Qed.

(** ** [scrub] twice *)

(** X3.  A second [scrub] at the same instant changes nothing, whatever the
    interval: [set] may run [scrub] twice, directly and through [get], and
    the second run finds nothing left to sweep. *)
Theorem scrub_twice c now c' :
  scrub now c = Ok (tt, c') → scrub now c' = Ok (tt, c').
Proof.
  rewrite scrub_eq. intros [= <-]. by rewrite scrub_eq, after_scrub_idem.
Qed.

(** ** Any number of distinct keys *)

(** X4.  First in, first out, for any number of keys: after [set] of
    distinct keys on an empty cache of capacity [n], each before the earlier
    entries expire, the cache holds exactly the last [n] of them (all of
    them when they are fewer): the array lists them in their order, with no
    other entry; [get] returns the value of each of them while it is live,
    and is absent for every other key. *)
Theorem last_keys_are_kept ttl0 n interval0 (xs : list (string * T * Z)) :
  ttl0 > 0 → (0 < n)%nat →
  NoDup (entry_key <$> xs) → none_expired ttl0 xs →
  ∃ c0 c,
    constructor T ttl0 (Z.of_nat n) interval0 = Ok c0 ∧
    perform_all (sets xs) c0 = Ok (tt, c) ∧
    list_ c = (λ x, (x.2 + ttl0, x.1.1)) <$> window n xs ∧
    size (map_ c) = (n `min` length xs)%nat ∧
    ∀ now, Forall (λ x, x.2 + ttl0 > now) (window n xs) →
      (∀ k v t, (k, v, t) ∈ window n xs →
         ∃ c', get k now c = Ok (Some v, c')) ∧
      (∀ k, k ∉ entry_key <$> window n xs →
         ∃ c', get k now c = Ok (None, c')).
Proof.
  intros Httl Hn Hdup Hfresh.
  set (c0 := mkCache ttl0 (Z.of_nat n) (default 10000 interval0) None ∅ []
             : Cache T).
  destruct (holds_sets xs [] c0) as (c & Hrun & Hc & Ht & _);
    [by apply holds_empty | done | done | simpl; lia |].
  simpl in Hc, Ht. rewrite Nat2Z.id in Hc.
  exists c0, c. split; [apply constructor_Ok; split_and!; [done | lia | done]|].
  split; [done|]. split; [by rewrite (holds_list _ _ Hc), Ht|].
  split.
  { rewrite (holds_size _ _ Hc). unfold window. rewrite length_drop. lia. }
  intros now Hlive. split.
  - intros k v t Hin. eexists. eapply holds_get_in; [done..|].
    rewrite Ht. by apply (proj1 (Forall_forall _ _) Hlive (k, v, t)).
  - intros k Hout. eexists. by eapply holds_get_out.
Qed.

(** ** A key that has expired, set again when the map is full *)

(** X5.  When the sweep is skipped, [set] of a key whose entry has expired
    evicts nothing, also when the map is full: the [get] inside [set]
    deletes the expired entry, which frees its own slot, and [evict] finds
    the map no longer full.  The map is the map before with the key
    overwritten, and the array only grows by the new entry. *)
Theorem set_expired_key_evicts_nothing c k e v v' t :
  Z.of_nat (size (map_ c)) ≤ capacity c →
  map_ c !! k = Some (e, v) → e ≤ t → rate_limited t c →
  set k v' t c =
    Ok (tt, mkCache (ttl c) (capacity c) (interval c) (last_ c)
              (<[k := (t + ttl c, v')]> (map_ c))
              (list_ c ++ [(t + ttl c, k)])).
Proof.
  intros Hsize Hk Hexp Hskip.
  assert (after_scrub t c = c) as Hscrub
    by (unfold after_scrub; by rewrite decide_True).
  rewrite set_eq, Hscrub.
  destruct (isFull c) eqn:Hfull.
  - unfold make_room, bind, read. rewrite Hfull, get_eq.
    destruct (after_get_expired k t c e v Hk Hexp) as (Hr & _ & Hc).
    specialize (Hc Hskip).
    destruct (after_get k t c) as [r c1]. simpl in Hr, Hc. subst r c1. simpl.
    rewrite evict_not_full.
    + unfold stored. simpl. by rewrite insert_delete_eq.
    + apply isFull_false. simpl. rewrite map_size_delete_Some by done.
      assert (size (map_ c) ≠ 0%nat); [|lia].
      intros Hzero%map_size_empty_inv. by rewrite Hzero in Hk.
  - by rewrite make_room_not_full.
Qed.

(** ** The array is not bounded by the capacity *)

Lemma set_live_key k v t c e v0 :
  map_ c !! k = Some (e, v0) → e > t → nil_value v0 = false →
  (∀ e' k', (e', k') ∈ list_ c → e' > t) →
  ∃ c', set k v t c = Ok (tt, c') ∧
        map_ c' = <[k := (t + ttl c, v)]> (map_ c) ∧
        list_ c' = list_ c ++ [(t + ttl c, k)] ∧
        ttl c' = ttl c ∧ capacity c' = capacity c.
Proof.
  intros Hk Hlive Hnil Hfresh.
  destruct (after_scrub_fresh t c Hfresh) as [Hm Hl].
  destruct (after_scrub_frame t c) as (Ht & Hc & _).
  rewrite set_eq, (make_room_live k t c e v0) by done.
  eexists. split; [done|]. simpl. by rewrite Hm, Hl, Ht, Hc.
Qed.

Lemma sets_of_one_key k (todo : list (string * T * Z)) : ∀ done c,
  list_ c = (λ x, (x.2 + ttl c, x.1.1)) <$> done →
  map_ c = match last done with
           | Some x => {[k := (x.2 + ttl c, x.1.2)]}
           | None => ∅
           end →
  Forall (λ x, x.1.1 = k ∧ nil_value x.1.2 = false) (done ++ todo) →
  none_expired (ttl c) (done ++ todo) →
  capacity c > 0 →
  ∃ c', perform_all (sets todo) c = Ok (tt, c') ∧
        length (list_ c') = length (done ++ todo) ∧
        size (map_ c') = (1 `min` length (done ++ todo))%nat.
Proof.
  induction todo as [|[[k' v] t] todo IH]; intros done c Hl Hm Hkey Hfresh Hcap.
  - exists c. rewrite app_nil_r. split; [done|].
    split; [by rewrite Hl, length_fmap|].
    destruct done as [|x done _] using rev_ind.
    + simpl in Hm. by rewrite Hm, map_size_empty.
    + rewrite last_snoc in Hm.
      rewrite Hm, map_size_singleton, length_app, Nat.add_1_r. done.
  - assert (k' = k ∧ nil_value v = false) as [-> Hnil].
    { apply (proj1 (Forall_forall _ _) Hkey (k', v, t)).
      apply elem_of_app. right. by left. }
    assert (∀ e' k', (e', k') ∈ list_ c → e' > t) as Hlive.
    { intros e' k'. rewrite Hl. intros (y & [= -> ->] & Hy)%list_elem_of_fmap.
      apply (StronglySorted_app_1_elem_of _ _ _ y (k, v, t) Hfresh Hy). by left. }
    assert (∃ c1, set k v t c = Ok (tt, c1) ∧
              map_ c1 = {[k := (t + ttl c, v)]} ∧
              list_ c1 = list_ c ++ [(t + ttl c, k)] ∧
              ttl c1 = ttl c ∧ capacity c1 = capacity c)
      as (c1 & Hset & Hm1 & Hl1 & Ht1 & Hc1).
    { destruct done as [|y done _] using rev_ind.
      - simpl in Hm.
        destruct (after_scrub_fresh t c Hlive) as [Hms Hls].
        destruct (after_scrub_frame t c) as (Hts & Hcs & _).
        rewrite set_eq, make_room_not_full.
        + eexists. split; [done|]. simpl.
          by rewrite Hms, Hls, Hts, Hcs, Hm, insert_empty.
        + apply isFull_false. rewrite Hms, Hcs, Hm, map_size_empty. lia.
      - rewrite last_snoc in Hm.
        assert (y.1.1 = k ∧ nil_value y.1.2 = false) as [Hyk Hynil].
        { apply (proj1 (Forall_forall _ _) Hkey y).
          apply elem_of_app. left. apply elem_of_app. right. by left. }
        destruct (set_live_key k v t c (y.2 + ttl c) y.1.2)
          as (c1 & Hset & Hm1 & Hrest); [| | done | done |].
        + rewrite Hm. apply lookup_singleton_eq.
        + apply Hlive with (k' := y.1.1). rewrite Hl.
          apply list_elem_of_fmap. exists y. split; [done|].
          apply elem_of_app. right. by left.
        + exists c1. split; [done|]. split; [|done].
          by rewrite Hm1, Hm, insert_singleton_eq. }
    destruct (IH (done ++ [(k, v, t)]) c1) as (c2 & Hrun & Hlen & Hsz).
    + by rewrite Hl1, Hl, fmap_app, Ht1.
    + by rewrite last_snoc, Hm1, Ht1.
    + by rewrite <- app_assoc.
    + by rewrite Ht1, <- app_assoc.
    + lia.
    + exists c2. simpl. rewrite (bind_Ok _ _ _ _ _ Hset).
      by rewrite <- app_assoc in Hlen, Hsz.
Qed.

(** X6.  The array is not bounded by [capacity]: every [set] pushes an
    entry, and overwriting a live key evicts nothing.  After any number of
    [set] calls for one key, with values that are not nil and each call
    before the earlier entries expire, the array has one entry per call
    while the map holds one entry. *)
Theorem array_grows_with_every_set ttl0 capacity0 interval0 k
    (xs : list (string * T * Z)) :
  ttl0 > 0 → capacity0 > 0 →
  Forall (λ x, x.1.1 = k ∧ nil_value x.1.2 = false) xs →
  none_expired ttl0 xs →
  ∃ c0 c,
    constructor T ttl0 capacity0 interval0 = Ok c0 ∧
    perform_all (sets xs) c0 = Ok (tt, c) ∧
    length (list_ c) = length xs ∧
    size (map_ c) = (1 `min` length xs)%nat.
Proof.
  intros Httl Hcap Hkey Hfresh.
  set (c0 := mkCache ttl0 capacity0 (default 10000 interval0) None ∅ []
             : Cache T).
  destruct (sets_of_one_key k xs [] c0) as (c & Hrun & Hlen & Hsz); [done..|].
  exists c0, c. split; [by apply constructor_Ok|]. done.
Qed.

(** ** What [set] does before it stores *)

Lemma make_room_only_removes key now c c1 :
  make_room key now c = Ok (tt, c1) →
  map_ c1 ⊆ map_ c ∧ (∃ n, list_ c1 = drop n (list_ c)) ∧ ttl c1 = ttl c.
Proof.
  destruct (after_get_only_removes key now c) as [Hm [n Hl]].
  destruct (after_get_frame key now c) as (Ht & _ & _).
  intros [[_ ->]|[(_ & _ & ->)|(_ & _ & He)]]%make_room_cases.
  - split; [done|]. split; [by exists 0%nat|done].
  - split; [done|]. split; [by exists n|done].
  - apply evict_spec in He as (n' & _ & -> & _). simpl.
    split; [etrans; [apply purge_subseteq | done]|].
    split; [|done]. exists (n + n')%nat. by rewrite Hl, drop_drop.
Qed.

(** [set] stores the entry in an object from which the earlier statements
    of [set] have only removed. *)
Lemma set_shape k v t c c' :
  set k v t c = Ok (tt, c') →
  ∃ c1 n, c' = stored k v t c1 ∧ map_ c1 ⊆ map_ c ∧
          list_ c1 = drop n (list_ c) ∧ ttl c1 = ttl c.
Proof.
  rewrite set_eq.
  destruct (make_room k t (after_scrub t c)) as [[[] c1]|] eqn:Hroom; [|done].
  intros [= <-].
  apply make_room_only_removes in Hroom as (Hm & [n1 Hl] & Ht).
  destruct (after_scrub_only_removes t c) as [Hms [n2 Hls]].
  destruct (after_scrub_frame t c) as (Hts & _ & _).
  exists c1, (n2 + n1)%nat. split; [done|].
  split; [by etrans|]. split; [by rewrite Hl, Hls, drop_drop | congruence].
Qed.

(** ** The time to live is not extended by reading *)

Lemma perform_keeps_entry x c c' k e v :
  sets_key k x = false → perform x c = Ok (tt, c') →
  map_ c' !! k = Some (e, v) → map_ c !! k = Some (e, v).
Proof.
  destruct x as [key value time|key time| |time|]; simpl; intros Hx Hcall Hk.
  - apply bool_decide_eq_false in Hx.
    apply set_shape in Hcall as (c1 & n & -> & Hm & _).
    simpl in Hk. rewrite lookup_insert_ne in Hk by done.
    by eapply lookup_weaken.
  - apply bind_Ok_inv in Hcall as (r & c1 & Hget & [= <-]).
    rewrite get_eq in Hget. injection Hget as Hget.
    destruct (after_get_only_removes key time c) as [Hm _].
    rewrite Hget in Hm. by eapply lookup_weaken.
  - injection Hcall as <-. done.
  - rewrite scrub_eq in Hcall. injection Hcall as <-.
    destruct (after_scrub_only_removes time c) as [Hm _].
    by eapply lookup_weaken.
  - apply evict_spec in Hcall as (n & _ & -> & _).
    eapply lookup_weaken; [done | apply purge_subseteq].
Qed.

Lemma perform_all_keeps_entry xs : ∀ c c' k e v,
  Forall (λ x, sets_key k x = false) xs → perform_all xs c = Ok (tt, c') →
  map_ c' !! k = Some (e, v) → map_ c !! k = Some (e, v).
Proof.
  induction xs as [|x xs IH]; intros c c' k e v Hxs; simpl.
  - by intros [= <-].
  - apply Forall_cons in Hxs as [Hx Hxs].
    intros ([] & c1 & Hcall & Hrest)%bind_Ok_inv Hk.
    eapply perform_keeps_entry; [done..|]. by eapply IH.
Qed.

(** X7.  The time to live is counted from [set] and reading does not extend
    it, nor does any call change the value: after [set(k, v, t0)] on a
    cache in use and any calls that do not set [k] again ([get] of any key,
    [set] of other keys, [scrub], [evict]), a [get(k, t)] returns either
    absent or [v], and it returns [v] only if [t < t0 + ttl]. *)
Theorem ttl_counts_from_set c k v t0 calls t :
  reachable c → Forall (λ x, sets_key k x = false) calls →
  ∃ c1 c2 r c3,
    set k v t0 c = Ok (tt, c1) ∧
    perform_all calls c1 = Ok (tt, c2) ∧
    get k t c2 = Ok (r, c3) ∧
    (r = None ∨ (r = Some v ∧ t < t0 + ttl c)).
Proof.
  intros Hc%reachable_invariant Hcalls.
  destruct (set_Ok k v t0 c Hc) as (c' & _ & Hset & Hinv1 & Httl & _).
  destruct (perform_all_Ok calls _ Hinv1) as (c2 & Hrun & _).
  exists (stored k v t0 c'), c2, (after_get k t c2).1, (after_get k t c2).2.
  split; [done|]. split; [done|].
  split; [rewrite get_eq; by destruct (after_get k t c2)|].
  destruct ((after_get k t c2).1) as [v'|] eqn:Hr; [|by left].
  right. apply after_get_Some in Hr as (e & Hk & Hlive).
  apply (perform_all_keeps_entry calls _ _ _ _ _ Hcalls Hrun) in Hk.
  simpl in Hk. rewrite lookup_insert_eq in Hk. injection Hk as <- <-.
  split; [done | lia].
Qed.

(** ** Calls in chronological order keep the array sorted *)

Lemma sorted_until_drop latest c c' n :
  list_ c' = drop n (list_ c) → ttl c' = ttl c →
  sorted_until latest c → sorted_until latest c'.
Proof.
  unfold sorted_until, expirations. intros -> -> [Hsorted Hbound].
  rewrite fmap_drop. split; [|by apply Forall_drop].
  rewrite <- (take_drop n ((list_ c).*1)) in Hsorted.
  by apply StronglySorted_app_1_r in Hsorted.
Qed.

Lemma sorted_until_later latest latest' c :
  latest ≤ latest' → sorted_until latest c → sorted_until latest' c.
Proof.
  intros Hle [Hsorted Hbound]. split; [done|].
  eapply Forall_impl; [done|]. simpl. lia.
Qed.

Lemma sorted_until_perform x c c' latest :
  sorted_until latest c → perform x c = Ok (tt, c') →
  match call_time x with
  | Some t => latest ≤ t → sorted_until t c'
  | None => sorted_until latest c'
  end.
Proof.
  intros Hc. destruct x as [key value time|key time| |time|]; simpl.
  - intros (c1 & n & -> & _ & Hl & Ht)%set_shape Hle.
    pose proof (sorted_until_drop _ _ _ _ Hl Ht Hc) as [Hsorted Hbound].
    unfold sorted_until, expirations in *. simpl. rewrite fmap_app. simpl.
    split.
    + apply StronglySorted_app; split_and!; [|done|repeat constructor].
      intros e1 e2 He1 ->%list_elem_of_singleton.
      apply (proj1 (Forall_forall _ _) Hbound) in He1. lia.
    + apply Forall_app. split; [|by repeat constructor].
      eapply Forall_impl; [done|]. simpl. lia.
  - intros (r & c1 & Hget & [= <-])%bind_Ok_inv Hle.
    rewrite get_eq in Hget. injection Hget as Hget.
    destruct (after_get_only_removes key time c) as [_ [n Hl]].
    destruct (after_get_frame key time c) as (Ht & _).
    rewrite Hget in Hl, Ht. simpl in *.
    eapply sorted_until_later; [done|]. by eapply sorted_until_drop.
  - by intros [= <-].
  - rewrite scrub_eq. intros [= <-] Hle.
    destruct (after_scrub_only_removes time c) as [_ [n Hl]].
    destruct (after_scrub_frame time c) as (Ht & _).
    eapply sorted_until_later; [done|]. by eapply sorted_until_drop.
  - intros (n & _ & -> & _)%evict_spec. by eapply sorted_until_drop.
Qed.

Lemma sorted_until_perform_all xs : ∀ c c' latest,
  sorted_until latest c → chronological xs →
  Forall (λ t, latest ≤ t) (omap call_time xs) →
  perform_all xs c = Ok (tt, c') →
  ∃ latest', sorted_until latest' c'.
Proof.
  induction xs as [|x xs IH]; intros c c' latest Hc Hxs Hlatest; simpl.
  - intros [= <-]. eauto.
  - intros ([] & c1 & Hcall & Hrest)%bind_Ok_inv.
    pose proof (sorted_until_perform x c c1 latest Hc Hcall) as Hc1.
    unfold chronological in *. simpl in Hxs, Hlatest.
    destruct (call_time x) as [t|].
    + apply StronglySorted_cons in Hxs as [Hle Hxs].
      apply Forall_cons in Hlatest as [Ht _].
      by apply (IH c1 c' t (Hc1 Ht) Hxs).
    + by apply (IH c1 c' latest).
Qed.

(** In a sorted array the entries after the expired prefix are all live. *)
Lemma sorted_after_expired_prefix now (l : list (Z * string)) :
  StronglySorted Z.le (l.*1) →
  Forall (λ item, item.1 > now) (drop (expired_prefix now l) l).
Proof.
  induction l as [|[e k] l IH]; simpl; [done|].
  intros [Hle Hsorted]%StronglySorted_cons.
  case_bool_decide as Hlive; simpl; [|by apply IH].
  constructor; [done|]. apply (proj1 (Forall_fmap _ _ _)) in Hle.
  eapply Forall_impl; [exact Hle|]. simpl. lia.
Qed.

(** X8.  When the calls come in chronological order (the clock does not
    run backwards between them), the array stays sorted by expiration; a
    [scrub] that sweeps then removes every expired entry, not only a
    prefix: no entry left in the array or in the map has
    [expiration ≤ now]. *)
Theorem chronological_calls_keep_array_sorted ttl0 capacity0 interval0 calls :
  ttl0 > 0 → capacity0 > 0 → chronological calls →
  ∃ c0 c,
    constructor T ttl0 capacity0 interval0 = Ok c0 ∧
    perform_all calls c0 = Ok (tt, c) ∧
    StronglySorted Z.le (expirations c) ∧
    ∀ now c',
      ¬ rate_limited now c → scrub now c = Ok (tt, c') →
      Forall (λ e, e > now) (expirations c') ∧
      ∀ k e v, map_ c' !! k = Some (e, v) → e > now.
Proof.
  intros Httl Hcap Htimes.
  set (c0 := mkCache ttl0 capacity0 (default 10000 interval0) None ∅ []
             : Cache T).
  assert (constructor T ttl0 capacity0 interval0 = Ok c0) as Hnew
    by by apply constructor_Ok.
  pose proof (invariant_constructor _ _ _ _ Hnew) as Hinv0.
  destruct (perform_all_Ok calls c0 Hinv0) as (c & Hrun & Hinv & _).
  set (latest := default 0 (head (omap call_time calls))).
  destruct (sorted_until_perform_all calls c0 c latest) as (latest' & Hsorted & _);
    [by split; constructor | done | | done |].
  { unfold chronological, latest in *.
    destruct (omap call_time calls) as [|t ts]; [done|]. simpl.
    apply StronglySorted_cons in Htimes as [Hle _].
    constructor; [lia | done]. }
  exists c0, c. split_and!; [done..|].
  intros now c' Hdue. rewrite scrub_due by done. intros [= <-].
  pose proof (sorted_after_expired_prefix now (list_ c) Hsorted) as Hlive.
  split.
  - unfold expirations. simpl. by apply Forall_fmap.
  - intros k e v Hk.
    pose proof (covers_consumed (expired_prefix now (list_ c)) c
                  (inv_covers _ Hinv) k e v Hk) as (i & _ & Hi).
    simpl in Hi. apply list_elem_of_lookup_2 in Hi.
    by apply (proj1 (Forall_forall _ _) Hlive (e, k)).
Qed.

End CacheUse.

(** * Properties of the collection *)

Section CollectionUse.

Context {Doc Id FindOptions Connection DriverError : Type}.
Context `{!NilValue Doc} `{!ToString Id}.

Implicit Types (this : BaseCollection Doc Connection) (c : Cache Doc).
Implicit Types (doc : Doc) (id : Id) (options : FindOptions).

(** ** The calls on the cache *)

Lemma on_cache_get key now this :
  ∃ x this',
    on_cache (get key now) this = Ok (x, this') ∧
    mjoin x = cached_at key now this ∧
    name this' = name this ∧ connection this' = connection this ∧
    (sound this → sound this') ∧
    (cache this = None → this' = this) ∧
    (∀ c, cache this = Some c → cache this' = Some (after_get key now c).2).
Proof.
  unfold on_cache, cached_at, sound. destruct (cache this) as [c|] eqn:Hc.
  - rewrite get_eq. destruct (after_get key now c) as [r c'] eqn:Hget.
    exists (Some r), (set_cache c' this). split_and!; try done.
    + simpl. intros Hreach. apply (reachable_call (Get key now) c); [done|].
      simpl. unfold bind. by rewrite get_eq, Hget.
    + intros ? [= <-]. by rewrite Hget.
  - exists None, this. split_and!; try done. by rewrite Hc.
Qed.

Lemma on_cache_set key doc now this :
  sound this →
  ∃ x this',
    on_cache (set key doc now) this = Ok (x, this') ∧
    name this' = name this ∧ connection this' = connection this ∧
    sound this' ∧
    (cache this = None → this' = this) ∧
    (∀ c, cache this = Some c →
       ∃ c', set key doc now c = Ok (tt, c') ∧ cache this' = Some c').
Proof.
  unfold on_cache, sound. destruct (cache this) as [c|] eqn:Hc.
  - intros Hreach.
    destruct (set_Ok key doc now c (reachable_invariant _ Hreach))
      as (c1 & _ & Hset & _).
    rewrite Hset. eexists (Some tt), _. split_and!; try done.
    + simpl. by apply (reachable_call (Set_ key doc now) c).
    + intros ? [= <-]. by eexists.
  - intros _. exists None, this. split_and!; try done. by rewrite Hc.
Qed.


(** ** The two ways of [cacheOne] *)

Lemma cacheOne_hit id options now this doc :
  cached_at (String_ id) now this = Some doc → nil_value doc = false →
  ∃ this',
    cacheOne id options now this
    = Ok (Settled (Fulfilled doc) : task Doc Id FindOptions Connection DriverError Doc, this') ∧
    name this' = name this ∧ connection this' = connection this ∧
    (sound this → sound this') ∧
    (∀ c, cache this = Some c →
       cache this' = Some (after_get (String_ id) now c).2).
Proof.
  intros Hcached Hdoc. unfold cacheOne.
  destruct (on_cache_get (String_ id) now this)
    as (x & this' & -> & Hx & Hname & Hconn & Hsound & _ & Hcache).
  exists this'. rewrite Hx, Hcached. simpl. by rewrite Hdoc.
Qed.

(** How [cacheOne] goes on after the driver has answered [r]: [findOne]
    settles at [now1], and [cacheOne] itself in a later turn, at [now2]. *)
Lemma cacheOne_miss id options now this :
  isNil (cached_at (String_ id) now this) = true →
  ∃ this' k,
    cacheOne id options now this
    = Ok (Await (FindOne (connection this) (name this) id options) k, this') ∧
    name this' = name this ∧ connection this' = connection this ∧
    (sound this → sound this') ∧
    (cache this = None → this' = this) ∧
    (∀ c, cache this = Some c →
       cache this' = Some (after_get (String_ id) now c).2) ∧
    ∀ (r : promise DriverError (option Doc)) now1 this1,
      ∃ k2,
        k r now1 this1
        = Ok (Later k2 : task Doc Id FindOptions Connection DriverError Doc, this1) ∧
        ∀ now2 this2,
          k2 now2 this2 =
          match r with
          | Fulfilled (Some doc) =>
              match on_cache (set (String_ id) doc now2) this2 with
              | Ok (_, this3) => Ok (Settled (Fulfilled doc), this3)
              | AssertionError => AssertionError
              end
          | Fulfilled None =>
              Ok (Settled (Rejected
                    (NotFoundError ("Not Found: " +:+ name this1))), this2)
          | Rejected err => Ok (Settled (Rejected (Thrown err)), this2)
          end.
Proof.
  intros Hnil. unfold cacheOne.
  destruct (on_cache_get (String_ id) now this)
    as (x & this' & -> & Hx & Hname & Hconn & Hsound & Hnone & Hcache).
  rewrite Hx. simpl. rewrite Hname, Hconn.
  destruct (cached_at (String_ id) now this) as [doc|] eqn:Hcached;
    [simpl in Hnil; unfold isNil; rewrite Hnil|];
    (eexists this', _; split; [reflexivity|]; split_and!; try done;
     intros r now1 this1; destruct r as [[doc'|]|err];
     eexists; split; by simpl).
Qed.


(** ** The cache of a collection stays a cache in use *)

(** X9.  The collection never fails an assertion of its cache.  A
    collection that the constructor has built is sound (its cache, if any,
    is a cache in use), and on a sound collection [cacheOne] does not throw
    an [AssertionError], neither when called nor when it goes on, whatever
    the driver answers, at whichever instants, and whatever other calls have
    done to the cache in between; it leaves a sound collection of the same
    name and connection. *)
Theorem cacheOne_never_fails_an_assertion :
  (∀ (options : CollectionOptions Connection) this,
     new_BaseCollection options = Ok this → sound this) ∧
  (∀ this id options now,
     sound this →
     ∃ (t : task Doc Id FindOptions Connection DriverError Doc) this',
       cacheOne id options now this = Ok (t, this') ∧
       sound this' ∧ name this' = name this ∧
       connection this' = connection this ∧ safe t).
Proof.
  split.
  - intros options this. unfold new_BaseCollection, sound.
    destruct (options_cache options) as [o|]; [|by intros [= <-]].
    destruct (constructor Doc _ _ _) as [c|] eqn:Hnew; [|done].
    intros [= <-]. simpl. by eapply reachable_new.
  - intros this id options now Hsound.
    destruct (isNil (cached_at (String_ id) now this)) eqn:Hnil.
    + destruct (cacheOne_miss id options now this Hnil)
        as (this' & k & Hcall & Hname & Hconn & Hsound' & _ & _ & Hk).
      exists (Await (FindOne (connection this) (name this) id options) k), this'.
      split_and!; [done | by apply Hsound' | done | done |].
      apply safe_await. intros r now1 this1 Hsound1.
      destruct (Hk r now1 this1) as (k2 & Hk1 & Hk2).
      exists (Later k2), this1. split_and!; [done..|].
      apply safe_later. intros now2 this2 Hsound2. rewrite Hk2.
      destruct r as [[doc|]|err].
      * destruct (on_cache_set (String_ id) doc now2 this2 Hsound2)
          as (x & this3 & -> & Hname3 & Hconn3 & Hsound3 & _).
        eexists _, this3. split_and!; [done..|]. apply safe_settled.
      * eexists _, this2. split_and!; [done..|]. apply safe_settled.
      * eexists _, this2. split_and!; [done..|]. apply safe_settled.
    + destruct (cached_at (String_ id) now this) as [doc|] eqn:Hcached;
        [|done].
      destruct (cacheOne_hit id options now this doc Hcached Hnil)
        as (this' & Hcall & Hname & Hconn & Hsound' & _).
      eexists _, this'. split_and!; [done | by apply Hsound' | done..|].
      apply safe_settled.
Qed.

(** ** Reading through the cache *)


(** ** A document that is not found *)

(** X11.  A miss of the driver is not cached.  When the driver answers
    [null], [cacheOne] rejects with the [NotFoundError] whose message names
    the collection; when the driver or the connection throws, it rejects
    with that error.  In both cases [cacheOne] makes no call on the cache
    after the answer: the object is left as it was found in each turn, and
    nothing is stored for [String(id)]. *)
Theorem cacheOne_does_not_cache_a_miss this id options now
    (r : promise DriverError (option Doc)) :
  isNil (cached_at (String_ id) now this) = true →
  (∀ doc, r ≠ Fulfilled (Some doc)) →
  ∃ k1 this1,
    cacheOne id options now this
    = Ok (Await (FindOne (connection this) (name this) id options) k1, this1) ∧
    ∀ now1 this2,
      ∃ k2,
        k1 r now1 this2
        = Ok (Later k2 : task Doc Id FindOptions Connection DriverError Doc, this2) ∧
        ∀ now2 this3,
          k2 now2 this3
          = Ok (Settled (Rejected
                  match r with
                  | Rejected err => Thrown err
                  | Fulfilled _ =>
                      NotFoundError ("Not Found: " +:+ name this2)
                  end), this3).
Proof.
  intros Hnil Hr.
  destruct (cacheOne_miss id options now this Hnil)
    as (this1 & k1 & Hcall & _ & _ & _ & _ & _ & Hk).
  exists k1, this1. split; [done|]. intros now1 this2.
  destruct (Hk r now1 this2) as (k2 & Hk1 & Hk2).
  exists k2. split; [done|]. intros now2 this3. rewrite Hk2.
  destruct r as [[doc|]|err]; [by destruct (Hr doc) | done..].
Qed.


(** ** Calls that overlap *)

(** A [get] that returned nothing returns nothing again, at whichever
    instant, until the key is set. *)
Lemma after_get_again key now now' c :
  isNil (after_get key now c).1 = true →
  isNil (after_get key now' (after_get key now c).2).1 = true.
Proof.
  intros Hnil.
  destruct (after_get key now' (after_get key now c).2).1 as [v'|] eqn:Hagain;
    [|done].
  apply after_get_Some in Hagain as (e & Hentry & _).
  unfold after_get in Hnil, Hentry.
  destruct (map_ (after_scrub now c) !! key) as [[e0 v0]|] eqn:Hfirst.
  - case_bool_decide; simpl in Hnil, Hentry.
    + rewrite Hfirst in Hentry. by injection Hentry as -> ->.
    + by rewrite lookup_delete_eq in Hentry.
  - simpl in Hentry. by rewrite Hfirst in Hentry.
Qed.

(** X12.  Misses are not coalesced.  While a [cacheOne] that missed awaits
    the driver, a further [cacheOne] for the same [String(id)], at
    whichever instant, asks the driver too (as long as no other call has
    set the key): the first call has left nothing in the cache that tells
    of the pending request. *)
Theorem cacheOne_does_not_coalesce_misses this id options now :
  isNil (cached_at (String_ id) now this) = true →
  ∃ k1 this1,
    cacheOne (DriverError := DriverError) id options now this
    = Ok (Await (FindOne (connection this) (name this) id options) k1, this1) ∧
    ∀ id' options' now',
      String_ id' = String_ id →
      ∃ k1' this1',
        cacheOne (DriverError := DriverError) id' options' now' this1
        = Ok (Await (FindOne (connection this) (name this) id' options') k1',
              this1').
Proof.
  intros Hnil.
  destruct (cacheOne_miss id options now this Hnil)
    as (this1 & k1 & Hcall & Hname & Hconn & _ & Hnone & Hcache & _).
  exists k1, this1. split; [done|]. intros id' options' now' Hkey.
  destruct (cacheOne_miss id' options' now' this1)
    as (this1' & k1' & Hagain & _).
  - unfold cached_at in *. rewrite Hkey.
    destruct (cache this) as [c|] eqn:Hc.
    + rewrite (Hcache c eq_refl). by apply after_get_again.
    + by rewrite (Hnone eq_refl), Hc.
  - exists k1', this1'. by rewrite <- Hname, <- Hconn.
Qed.

End CollectionUse.

(** * The further properties at concrete inputs *)

Lemma isFull_exactly_at_capacity_witness :
  Z.of_nat (size (map_ full)) ≤ capacity full ∧
  (isFull full = true ↔ Z.of_nat (size (map_ full)) = capacity full).
Proof. apply (isFull_exactly_at_capacity full full_reachable). Defined.

Lemma reads_only_remove_witness :
  ∃ r c', get "a" 10010 full = Ok (r, c') ∧
    map_ c' ⊆ map_ full ∧ (∃ n, list_ c' = drop n (list_ full)) ∧
    ttl c' = 10 ∧ capacity c' = 2 ∧ interval c' = 10000.
Proof.
  exists (after_get "a" 10010 full).1, (after_get "a" 10010 full).2.
  assert (get "a" 10010 full
          = Ok ((after_get "a" 10010 full).1, (after_get "a" 10010 full).2))
    as Hget by (vm_compute; reflexivity).
  split; [exact Hget|].
  exact (proj1 (reads_only_remove full) "a" 10010 _ _ Hget).
Defined.

Lemma scrub_twice_witness :
  let c' : Cache Z := mkCache 10 2 10000 (Some 20000) ∅ [] in
  scrub 20000 c' = Ok (tt, c').
Proof. apply (scrub_twice full 20000). vm_compute. reflexivity. Defined.

Lemma last_keys_are_kept_witness :
  ∃ c0 c,
    constructor Z 60000 2 None = Ok c0 ∧
    perform_all (sets [("a", 1, 0); ("b", 2, 1); ("c", 3, 2); ("d", 4, 3)]) c0
      = Ok (tt, c) ∧
    list_ c = [(60002, "c"); (60003, "d")] ∧
    size (map_ c) = 2%nat.
Proof.
  destruct (last_keys_are_kept 60000 2%nat None
              [("a", 1, 0); ("b", 2, 1); ("c", 3, 2); ("d", 4, 3)])
    as (c0 & c & Hnew & Hrun & Hlist & Hsize & _).
  - lia.
  - lia.
  - apply (bool_decide_unpack _). by vm_compute.
  - repeat constructor; simpl; lia.
  - by exists c0, c.
Defined.

Lemma set_expired_key_evicts_nothing_witness :
  set "a" 3 10010 full =
    Ok (tt, mkCache 10 2 10000 (Some 10000)
              (<["a" := (10020, 3)]> (map_ full))
              [(10010, "a"); (10011, "b"); (10020, "a")]).
Proof.
  apply (set_expired_key_evicts_nothing full "a" 10010 1 3 10010).
  - vm_compute. discriminate.
  - vm_compute. reflexivity.
  - lia.
  - vm_compute. reflexivity.
Defined.

Lemma array_grows_with_every_set_witness :
  ∃ c0 c,
    constructor Z 60000 3 None = Ok c0 ∧
    perform_all (sets [("a", 1, 0); ("a", 2, 1); ("a", 3, 2); ("a", 4, 3)]) c0
      = Ok (tt, c) ∧
    length (list_ c) = 4%nat ∧ size (map_ c) = 1%nat.
Proof.
  apply (array_grows_with_every_set 60000 3 None "a"
           [("a", 1, 0); ("a", 2, 1); ("a", 3, 2); ("a", 4, 3)]).
  - lia.
  - lia.
  - repeat (constructor; [done|]). constructor.
  - repeat constructor; simpl; lia.
Defined.

Lemma ttl_counts_from_set_witness :
  ∃ c1 c2 r c3,
    set "a" 1 0 fresh = Ok (tt, c1) ∧
    perform_all [Get "a" 59999; Set_ "b" 2 59999; Scrub 60000] c1
      = Ok (tt, c2) ∧
    get "a" 60000 c2 = Ok (r, c3) ∧
    (r = None ∨ (r = Some 1 ∧ 60000 < 0 + ttl fresh)).
Proof.
  apply (ttl_counts_from_set fresh "a" 1 0
           [Get "a" 59999; Set_ "b" 2 59999; Scrub 60000] 60000).
  - exact fresh_reachable.
  - repeat (constructor; [done|]). constructor.
Defined.

Lemma chronological_calls_keep_array_sorted_witness :
  ∃ c0 c,
    constructor Z 10 2 (Some 100) = Ok c0 ∧
    perform_all [Set_ "a" 1 100; Get "a" 105; IsFull; Set_ "b" 2 105] c0
      = Ok (tt, c) ∧
    StronglySorted Z.le (expirations c).
Proof.
  destruct (chronological_calls_keep_array_sorted (T := Z) 10 2 (Some 100)
              [Set_ "a" 1 100; Get "a" 105; IsFull; Set_ "b" 2 105])
    as (c0 & c & Hnew & Hrun & Hsorted & _).
  - lia.
  - lia.
  - repeat constructor; simpl; lia.
  - by exists c0, c.
Defined.

Lemma cacheOne_never_fails_an_assertion_witness :
  new_BaseCollection tests_options = Ok tests ∧
  ∃ (t : task string string unit unit string string) this',
    cacheOne "5f0c" tt 0 tests = Ok (t, this') ∧
    sound this' ∧ name this' = "tests" ∧ connection this' = tt ∧ safe t.
Proof.
  split; [reflexivity|].
  apply (proj2 cacheOne_never_fails_an_assertion tests "5f0c" tt 0).
  apply (proj1 (cacheOne_never_fails_an_assertion
                  (Id := string) (FindOptions := unit) (DriverError := string))
           tests_options tests).
  reflexivity.
Defined.


Lemma cacheOne_does_not_cache_a_miss_witness :
  ∃ k1 this1,
    cacheOne (DriverError := string) "5f0c" tt 0 tests
    = Ok (Await (FindOne tt "tests" "5f0c" tt) k1, this1) ∧
    ∀ now1 this2,
      ∃ k2,
        k1 (Fulfilled None) now1 this2 = Ok (Later k2, this2) ∧
        ∀ now2 this3,
          k2 now2 this3
          = Ok (Settled (Rejected
                  (NotFoundError ("Not Found: " +:+ name this2))), this3).
Proof.
  apply (cacheOne_does_not_cache_a_miss tests "5f0c" tt 0 (Fulfilled None)).
  - reflexivity.
  - discriminate.
Defined.

Lemma cacheOne_does_not_coalesce_misses_witness :
  ∃ k1 this1,
    cacheOne (DriverError := string) "5f0c" tt 0 tests
    = Ok (Await (FindOne tt "tests" "5f0c" tt) k1, this1) ∧
    ∃ k1' this1',
      cacheOne (DriverError := string) "5f0c" tt 1 this1
      = Ok (Await (FindOne tt "tests" "5f0c" tt) k1', this1').
Proof.
  destruct (cacheOne_does_not_coalesce_misses (DriverError := string)
              tests "5f0c" tt 0)
    as (k1 & this1 & Hcall & Hagain); [reflexivity|].
  exists k1, this1. split; [exact Hcall|].
  apply (Hagain "5f0c" tt 1 eq_refl).
Defined.
